(** * Promo Alerts: the relevance filter and the deal scorer

    A shallow embedding of the pure decision functions of
    [app/main.py] ([PromoAlertsMonitor]) and [app/flight_price_apis.py]
    ([FlightPriceChecker.estimate_miles_prices]), and the properties the
    specification states about them; then of the loop of [fetch_feed]
    and [monitor_feeds] over the entries of the feeds, of the texts of
    the notifications, of [enhance_post_with_apis] in
    [app/public_apis.py] and of the default departure date of
    [get_sp_recife_prices], with the properties the code shows.

    Python values are modelled as follows.
    - [str] is a list of Unicode code points ([text]).
    - [float] is the kernel's binary64 ([PrimFloat.float]); [int] is [Z].
    - An exception escaping a function is the [Raise] case of [result].
    - The Unicode Character Database behind [unicodedata], [str.lower],
      [str.strip] and the [re] character classes is a parameter ([UCD]);
      [latin] is its excerpt used to run the functions on concrete posts. *)

From Stdlib Require Import Bool List NArith ZArith Lia Floats.
From Stdlib Require String Ascii.
Import ListNotations String.StringSyntax.

#[local] Delimit Scope string_scope with string.

Set Warnings "-inexact-float".

(** ** Text: Python strings as lists of code points *)

Definition cp := N.
Definition text := list cp.

(** UTF-8 decoding of a source literal, so that posts can be written as
    they appear in a feed. *)
Fixpoint utf8_go (pending : nat) (acc : N) (bs : list N) : text :=
  match bs with
  | [] => []
  | b :: bs' =>
      match pending with
      | O =>
          if (b <? 0x80)%N then b :: utf8_go 0 0%N bs'
          else if (b <? 0xE0)%N then utf8_go 1 (b - 0xC0)%N bs'
          else if (b <? 0xF0)%N then utf8_go 2 (b - 0xE0)%N bs'
          else utf8_go 3 (b - 0xF0)%N bs'
      | S O => (acc * 64 + (b - 0x80))%N :: utf8_go 0 0%N bs'
      | S p => utf8_go p (acc * 64 + (b - 0x80))%N bs'
      end
  end.

Definition utf8 (s : String.string) : text :=
  utf8_go 0 0%N (map Ascii.N_of_ascii (String.list_ascii_of_string s)).

Notation "'u8' s" := (utf8 s%string) (at level 9, s at level 0, only parsing).

(** [p in s] on strings. *)
Fixpoint starts_with (p s : text) : bool :=
  match p, s with
  | [], _ => true
  | _ :: _, [] => false
  | a :: p', b :: s' => (a =? b)%N && starts_with p' s'
  end.

Fixpoint contains (p s : text) : bool :=
  starts_with p s ||
  match s with
  | [] => false
  | _ :: s' => contains p s'
  end.

(** [s.replace(old, new)] for a non-empty [old]: occurrences are replaced
    left to right without overlap; [skip] counts the characters of the
    occurrence just replaced that are still to be dropped. *)
Fixpoint replace_go (old new : text) (skip : nat) (s : text) : text :=
  match s with
  | [] => []
  | c :: s' =>
      match skip with
      | S k => replace_go old new k s'
      | O =>
          if starts_with old s
          then new ++ replace_go old new (pred (length old)) s'
          else c :: replace_go old new 0 s'
      end
  end.

(** With an empty [old], Python puts [new] before every character and at
    the end. *)
Definition replace (old new s : text) : text :=
  match old with
  | [] => new ++ flat_map (fun c => c :: new) s
  | _ :: _ => replace_go old new 0 s
  end.

(** [s.split(sep)] for a non-empty [sep]: [cur] is the part being read, in
    reverse. *)
Fixpoint split_go (sep : text) (skip : nat) (cur : text) (s : text)
  : list text :=
  match s with
  | [] => [rev cur]
  | c :: s' =>
      match skip with
      | S k => split_go sep k cur s'
      | O =>
          if starts_with sep s
          then rev cur :: split_go sep (pred (length sep)) [] s'
          else split_go sep 0 (c :: cur) s'
      end
  end.

Definition split (sep s : text) : list text := split_go sep 0 [] s.

(** ** The Unicode Character Database *)

Record UCD := {
  (** full canonical decomposition of a character, [[c]] when it has none *)
  decomposition : cp -> text;
  (** canonical combining class, [unicodedata.combining] *)
  combining : cp -> N;
  (** [unicodedata.category(c) == 'Mn'] *)
  category_Mn : cp -> bool;
  (** full lowercase mapping of a character *)
  lower_full : cp -> text;
  (** simple lowercase mapping, used by [re.IGNORECASE] *)
  lower_simple : cp -> cp;
  (** the properties Cased and Case_Ignorable *)
  cased : cp -> bool;
  case_ignorable : cp -> bool;
  (** [c.isspace()], also the class [\s] *)
  space : cp -> bool;
  (** decimal digit value of a non-ASCII character, [None] when it has none *)
  decimal : cp -> option N
}.

Section Unicode.
Variable U : UCD.

(** *** [unicodedata.normalize('NFD', text)] *)

(** A character of non-zero class moves left past the characters of
    strictly greater class; [out] is the output so far, in reverse. *)
Fixpoint insert_mark (c : cp) (out : text) : text :=
  match out with
  | [] => [c]
  | d :: rest =>
      if (combining U c <? combining U d)%N
      then d :: insert_mark c rest
      else c :: out
  end.

Definition order_step (out : text) (c : cp) : text :=
  if (combining U c =? 0)%N then c :: out else insert_mark c out.

Definition canonical_order (s : text) : text :=
  rev (fold_left order_step s []).

Definition nfd (s : text) : text :=
  canonical_order (flat_map (decomposition U) s).

(** *** [str.lower] *)

Definition capital_sigma : cp := 0x3A3%N.
Definition small_sigma : cp := 0x3C3%N.
Definition final_sigma : cp := 0x3C2%N.

(** The first character that is not case-ignorable, if any. *)
Fixpoint first_not_ignorable (s : text) : option cp :=
  match s with
  | [] => None
  | c :: s' => if case_ignorable U c then first_not_ignorable s' else Some c
  end.

(** A capital sigma is final when a cased letter precedes it and none
    follows, case-ignorable characters skipped; [before] is in reverse. *)
Definition in_final_sigma_context (before after : text) : bool :=
  match first_not_ignorable before with
  | Some c =>
      cased U c &&
      match first_not_ignorable after with
      | Some d => negb (cased U d)
      | None => true
      end
  | None => false
  end.

Fixpoint lower_go (before s : text) : text :=
  match s with
  | [] => []
  | c :: s' =>
      (if (c =? capital_sigma)%N
       then [if in_final_sigma_context before s'
             then final_sigma else small_sigma]
       else lower_full U c)
      ++ lower_go (c :: before) s'
  end.

Definition lower (s : text) : text := lower_go [] s.

(** *** [str.strip] *)

Fixpoint lstrip (s : text) : text :=
  match s with
  | [] => []
  | c :: s' => if space U c then lstrip s' else s
  end.

Definition rstrip (s : text) : text := rev (lstrip (rev s)).

Definition strip (s : text) : text := rstrip (lstrip s).

(** *** [normalize_text] *)

Definition strip_marks (s : text) : text :=
  filter (fun c => negb (category_Mn U c)) s.

Definition normalize_text (t : text) : text :=
  match t with
  | [] => []
  | _ :: _ => strip (lower (strip_marks (nfd t)))
  end.

End Unicode.

(** ** Numbers *)

(** The exceptions that the modelled code can raise. *)
Inductive py_error := ValueError | ZeroDivisionError | OverflowError.

Inductive result (A : Type) : Type :=
| Ok (a : A)
| Raise (e : py_error).
Arguments Ok {A} a.
Arguments Raise {A} e.

Definition bind {A B} (r : result A) (f : A -> result B) : result B :=
  match r with
  | Ok a => f a
  | Raise e => Raise e
  end.

Notation "x <- r ;; k" := (bind r (fun x => k))
  (at level 61, r at next level, right associativity).

(** A number read from the configuration or computed by the scorer is an
    [int] or a [float]. *)
Inductive num := Int (z : Z) | Float (f : float).

Definition is_finite (x : float) : bool :=
  match Prim2SF x with
  | S754_zero _ | S754_finite _ _ _ => true
  | S754_infinity _ | S754_nan => false
  end.

(** The float nearest to [n / d] (ties to even), for [0 < n] and [0 < d]. *)
Definition nearest_ratio (n d : positive) : spec_float :=
  SF64div (S754_finite false n 0) (S754_finite false d 0).

(** The float nearest to [(-1)^s * n / d]. *)
Definition float_of_ratio (s : bool) (n : Z) (d : positive) : float :=
  match n with
  | Zpos p =>
      let r := SF2Prim (nearest_ratio p d) in if s then (- r)%float else r
  | _ => if s then (-0)%float else 0%float
  end.

(** [int(x)]: truncation towards zero. *)
Definition py_int (x : float) : result Z :=
  match Prim2SF x with
  | S754_zero _ => Ok 0%Z
  | S754_finite s m e =>
      let a := (if 0 <=? e then Zpos m * 2 ^ e else Zpos m / 2 ^ (- e))%Z in
      Ok (if s then (- a)%Z else a)
  | S754_infinity _ => Raise OverflowError
  | S754_nan => Raise ValueError
  end.

(** The mathematical floor of a finite float. *)
Definition float_floor (x : float) : option Z :=
  match Prim2SF x with
  | S754_zero _ => Some 0%Z
  | S754_finite s m e =>
      let sm := if s then Zneg m else Zpos m in
      Some (if 0 <=? e then sm * 2 ^ e else sm / 2 ^ (- e))%Z
  | S754_infinity _ | S754_nan => None
  end.

(** The integer nearest to [n / d], ties to the even one. *)
Definition round_half_even (n d : Z) : Z :=
  let q := (n / d)%Z in
  let r := (n mod d)%Z in
  match (2 * r ?= d)%Z with
  | Lt => q
  | Gt => (q + 1)%Z
  | Eq => if Z.even q then q else (q + 1)%Z
  end.

(** [round(x, 1)]: the exact value of [x] is rounded to one decimal, ties
    to even, and the decimal result is read back as a float. *)
Definition py_round1 (x : float) : float :=
  match Prim2SF x with
  | S754_finite s m e =>
      let tenths :=
        (if 0 <=? e then 10 * Zpos m * 2 ^ e
         else round_half_even (10 * Zpos m) (2 ^ (- e)))%Z in
      float_of_ratio s tenths 10
  | _ => x
  end.

(** [x / y] *)
Definition py_div (x y : float) : result float :=
  if (y =? 0)%float then Raise ZeroDivisionError else Ok (x / y)%float.

(** [x <= z] for a float and an int compares the exact values. *)
Definition float_le_int (x : float) (z : Z) : bool :=
  match Prim2SF x with
  | S754_zero _ => (0 <=? z)%Z
  | S754_finite s m e =>
      let sm := if s then Zneg m else Zpos m in
      (if 0 <=? e then sm * 2 ^ e <=? z else sm <=? z * 2 ^ (- e))%Z
  | S754_infinity s => s
  | S754_nan => false
  end.

Definition float_le_num (x : float) (n : num) : bool :=
  match n with
  | Int z => float_le_int x z
  | Float f => (x <=? f)%float
  end.

(** [float(s)] on the strings that reach it in [extract_price]: decimal
    digits with at most one point.  Python's [float] reads more (signs,
    exponents, blanks, underscores, [inf], [nan]); any such string is a
    [ValueError] here, and [number_group_parses] below shows that none
    reaches this function. *)
Definition ascii_digit (c : cp) : option N :=
  if ((48 <=? c) && (c <=? 57))%N then Some (c - 48)%N else None.

Definition decimal_digit (U : UCD) (c : cp) : option N :=
  if (c <? 128)%N then ascii_digit c else decimal U c.

Fixpoint digits_value (U : UCD) (s : text) (acc : Z) : option Z :=
  match s with
  | [] => Some acc
  | c :: s' =>
      match decimal_digit U c with
      | Some d => digits_value U s' (10 * acc + Z.of_N d)%Z
      | None => None
      end
  end.

Definition point : cp := 46%N.
Definition comma : cp := 44%N.

Fixpoint break_at_point (s : text) : text * option text :=
  match s with
  | [] => ([], None)
  | c :: s' =>
      if (c =? point)%N then ([], Some s')
      else let (a, b) := break_at_point s' in (c :: a, b)
  end.

Definition py_float (U : UCD) (s : text) : result float :=
  let (ip, fp) := break_at_point s in
  let fr := match fp with Some f => f | None => [] end in
  match ip ++ fr with
  | [] => Raise ValueError
  | _ :: _ =>
      match digits_value U ip 0, digits_value U fr 0 with
      | Some a, Some b =>
          let scale := (10 ^ Z.of_nat (length fr))%Z in
          Ok (float_of_ratio false (a * scale + b) (Z.to_pos scale))
      | _, _ => Raise ValueError
      end
  end.

(** ** Regular expressions: the backtracking matcher of [re]

    Only the constructs of the price patterns: a character class, sequence,
    greedy [*], greedy [{lo,hi}] (so [?] is [{0,1}]) and the capturing
    group.  Alternatives are tried in the order of [re]: a repetition
    first takes one more iteration and gives it back when the rest of the
    pattern fails. *)

Inductive regex :=
| Eps
| Chr (p : cp -> bool)
| Seq (r1 r2 : regex)
| Star (r : regex)
| Rep (lo hi : nat) (r : regex)
| Group (r : regex).

(** The text captured by group 1, if the group has matched. *)
Definition capture := option text.

Section Matcher.
Variable A : Type.

Definition cont := text -> capture -> option A.
Definition matcher := text -> capture -> cont -> option A.

Definition or_else (a : option A) (b : option A) : option A :=
  match a with
  | Some x => Some x
  | None => b
  end.

(** [r*]: an iteration that consumes nothing is not taken; [fuel] bounds
    the iterations by the length of the input. *)
Fixpoint star (m : matcher) (fuel : nat) (s : text) (g : capture)
  (k : cont) : option A :=
  match fuel with
  | O => k s g
  | S n =>
      or_else
        (m s g (fun s1 g1 =>
                  if (length s1 <? length s)%nat
                  then star m n s1 g1 k else None))
        (k s g)
  end.

(** [r{lo,hi}] *)
Fixpoint rep (m : matcher) (hi lo : nat) (s : text) (g : capture)
  (k : cont) : option A :=
  match hi with
  | O => if (lo =? 0)%nat then k s g else None
  | S hi' =>
      or_else
        (m s g (fun s1 g1 => rep m hi' (pred lo) s1 g1 k))
        (if (lo =? 0)%nat then k s g else None)
  end.

Fixpoint rmatch (r : regex) (s : text) (g : capture) (k : cont)
  {struct r} : option A :=
  match r with
  | Eps => k s g
  | Chr p =>
      match s with
      | c :: s' => if p c then k s' g else None
      | [] => None
      end
  | Seq r1 r2 => rmatch r1 s g (fun s1 g1 => rmatch r2 s1 g1 k)
  | Star r0 => star (rmatch r0) (length s) s g k
  | Rep lo hi r0 => rep (rmatch r0) hi lo s g k
  | Group r0 =>
      rmatch r0 s g
        (fun s1 _ => k s1 (Some (firstn (length s - length s1) s)))
  end.
End Matcher.

Arguments or_else {A} a b.
Arguments star {A} m fuel s g k.
Arguments rep {A} m hi lo s g k.
Arguments rmatch {A} r s g k.

(** A match starting at the head of [s]: the capture and what follows. *)
Definition match_here (r : regex) (s : text) : option (capture * text) :=
  rmatch r s None (fun s' g => Some (g, s')).

(** [re.findall(pattern, text)] for a pattern with one group: the group of
    every match, from left to right, without overlap.  After a match that
    consumed nothing the scan moves on by one character (none of the price
    patterns matches the empty string). *)
Fixpoint findall_go (fuel : nat) (r : regex) (s : text) : list text :=
  match fuel with
  | O => []
  | S n =>
      let next := match s with [] => [] | _ :: s' => findall_go n r s' end in
      match match_here r s with
      | Some (g, rest) =>
          match g with Some w => w | None => [] end ::
          (if (length rest <? length s)%nat then findall_go n r rest
           else next)
      | None => next
      end
  end.

Definition findall (r : regex) (s : text) : list text :=
  findall_go (S (length s)) r s.

(** ** [extract_price] *)

Section Price.
Variable U : UCD.

(** [\d] and [\s] *)
Definition is_digit (c : cp) : bool :=
  match decimal_digit U c with Some _ => true | None => false end.

Definition digit : regex := Chr is_digit.
Definition blank : regex := Chr (space U).
Definition exact (a : cp) : regex := Chr (N.eqb a).

(** A letter under [re.IGNORECASE]: the simple lowercase of the character
    is that of the letter or one of its equivalents
    ([sre_compile._ignorecase_fixes]; among the letters of the price
    patterns only [i] and [s] have one, dotless i and long s). *)
Definition ignorecase_fixes (lo : cp) : list cp :=
  if (lo =? 0x69)%N then [0x131%N]
  else if (lo =? 0x73)%N then [0x17F%N]
  else [].

Definition letter (a c : cp) : bool :=
  let lo := lower_simple U a in
  existsb (N.eqb (lower_simple U c)) (lo :: ignorecase_fixes lo).

(** The letters of [w], then [rest]. *)
Definition word (w : text) (rest : regex) : regex :=
  fold_right (fun a r => Seq (Chr (letter a)) r) rest w.

(** [\d{1,3}(?:\.\d{3})*(?:,\d{2})?] *)
Definition number : regex :=
  Seq (Rep 1 3 digit)
    (Seq (Star (Seq (exact point) (Rep 3 3 digit)))
       (Rep 0 1 (Seq (exact comma) (Rep 2 2 digit)))).

(** [R\$\s*(number)] *)
Definition pattern_currency : regex :=
  word (u8"R") (Seq (exact 0x24%N) (Seq (Star blank) (Group number))).

(** [(number)\s*reais] *)
Definition pattern_reais : regex :=
  Seq (Group number) (Seq (Star blank) (word (u8"reais") Eps)).

(** [por\s*R\$\s*(number)] *)
Definition pattern_por : regex :=
  word (u8"por") (Seq (Star blank) pattern_currency).

(** [partir\s+de\s*R\$\s*(number)] *)
Definition pattern_partir : regex :=
  word (u8"partir")
    (Seq blank (Seq (Star blank)
       (word (u8"de") (Seq (Star blank) pattern_currency)))).

Definition price_patterns : list regex :=
  [pattern_currency; pattern_reais; pattern_por; pattern_partir].

(** [matches[0].replace('.', '').replace(',', '.')] *)
Definition price_str (g : text) : text :=
  replace [comma] [point] (replace [point] [] g).

(** The loop over the patterns: the first pattern with a match decides,
    unless [float] raises [ValueError], which moves on to the next
    pattern; any other exception escapes. *)
Fixpoint try_patterns (ps : list regex) (t : text)
  : result (option float) :=
  match ps with
  | [] => Ok None
  | p :: ps' =>
      match findall p t with
      | [] => try_patterns ps' t
      | g :: _ =>
          match py_float U (price_str g) with
          | Ok f => Ok (Some f)
          | Raise ValueError => try_patterns ps' t
          | Raise e => Raise e
          end
      end
  end.

Definition extract_price (t : text) : result (option float) :=
  match t with
  | [] => Ok None
  | _ :: _ => try_patterns price_patterns t
  end.
End Price.

(** ** An excerpt of the Unicode Character Database

    The properties of U+0000..U+00FF (ASCII and Latin-1, which cover
    Portuguese text), of the combining marks their decompositions use, and
    of a few characters named below.  A code point outside the excerpt is
    given no property at all, as if unassigned. *)

Definition in_range (lo hi c : cp) : bool := ((lo <=? c) && (c <=? hi))%N.

Definition one_of (l : list cp) (c : cp) : bool := existsb (N.eqb c) l.

Fixpoint lookup {A} (c : cp) (t : list (cp * A)) : option A :=
  match t with
  | [] => None
  | (d, a) :: t' => if (c =? d)%N then Some a else lookup c t'
  end.

(** Canonical decompositions: the accented Latin-1 letters, capital I with
    dot above (U+0130) and the Kelvin sign (U+212A). *)
Definition latin_decompositions : list (cp * text) :=
  [
    (0xC0, [0x41; 0x300]); (0xC1, [0x41; 0x301]); (0xC2, [0x41; 0x302]);
    (0xC3, [0x41; 0x303]); (0xC4, [0x41; 0x308]); (0xC5, [0x41; 0x30A]);
    (0xC7, [0x43; 0x327]); (0xC8, [0x45; 0x300]); (0xC9, [0x45; 0x301]);
    (0xCA, [0x45; 0x302]); (0xCB, [0x45; 0x308]); (0xCC, [0x49; 0x300]);
    (0xCD, [0x49; 0x301]); (0xCE, [0x49; 0x302]); (0xCF, [0x49; 0x308]);
    (0xD1, [0x4E; 0x303]); (0xD2, [0x4F; 0x300]); (0xD3, [0x4F; 0x301]);
    (0xD4, [0x4F; 0x302]); (0xD5, [0x4F; 0x303]); (0xD6, [0x4F; 0x308]);
    (0xD9, [0x55; 0x300]); (0xDA, [0x55; 0x301]); (0xDB, [0x55; 0x302]);
    (0xDC, [0x55; 0x308]); (0xDD, [0x59; 0x301]); (0xE0, [0x61; 0x300]);
    (0xE1, [0x61; 0x301]); (0xE2, [0x61; 0x302]); (0xE3, [0x61; 0x303]);
    (0xE4, [0x61; 0x308]); (0xE5, [0x61; 0x30A]); (0xE7, [0x63; 0x327]);
    (0xE8, [0x65; 0x300]); (0xE9, [0x65; 0x301]); (0xEA, [0x65; 0x302]);
    (0xEB, [0x65; 0x308]); (0xEC, [0x69; 0x300]); (0xED, [0x69; 0x301]);
    (0xEE, [0x69; 0x302]); (0xEF, [0x69; 0x308]); (0xF1, [0x6E; 0x303]);
    (0xF2, [0x6F; 0x300]); (0xF3, [0x6F; 0x301]); (0xF4, [0x6F; 0x302]);
    (0xF5, [0x6F; 0x303]); (0xF6, [0x6F; 0x308]); (0xF9, [0x75; 0x300]);
    (0xFA, [0x75; 0x301]); (0xFB, [0x75; 0x302]); (0xFC, [0x75; 0x308]);
    (0xFD, [0x79; 0x301]); (0xFF, [0x79; 0x308]); (0x130, [0x49; 0x307]);
    (0x212A, [0x4B])
  ]%N.

Definition latin_decomposition (c : cp) : text :=
  match lookup c latin_decompositions with
  | Some d => d
  | None => [c]
  end.

(** Classes of the marks U+0300..U+0303, U+0307, U+0308, U+030A (above,
    230) and U+0327 (cedilla, 202), and of two spacing marks of non-zero
    class: U+302E (224) and U+1D16D (226). *)
Definition latin_combining (c : cp) : N :=
  (if one_of [0x300; 0x301; 0x302; 0x303; 0x307; 0x308; 0x30A] c then 230
   else if c =? 0x327 then 202
   else if c =? 0x302E then 224
   else if c =? 0x1D16D then 226
   else 0)%N.

(** Nonspacing marks: those above and U+0941 (Devanagari vowel sign u,
    class 0). *)
Definition latin_category_Mn (c : cp) : bool :=
  one_of [0x300; 0x301; 0x302; 0x303; 0x307; 0x308; 0x30A; 0x327; 0x941]%N c.

Definition latin_upper (c : cp) : bool :=
  (in_range 0x41 0x5A c || (in_range 0xC0 0xDE c && negb (c =? 0xD7)))%N.

Definition latin_lower_simple (c : cp) : cp :=
  (if latin_upper c then c + 32
   else if c =? 0x130 then 0x69
   else if c =? 0x212A then 0x6B
   else if c =? 0x3A3 then 0x3C3
   else c)%N.

Definition latin_lower_full (c : cp) : text :=
  if (c =? 0x130)%N then [0x69; 0x307]%N else [latin_lower_simple c].

Definition latin_cased (c : cp) : bool :=
  (in_range 0x41 0x5A c || in_range 0x61 0x7A c
   || one_of [0xAA; 0xB5; 0xBA] c
   || (in_range 0xC0 0xFF c && negb (c =? 0xD7) && negb (c =? 0xF7))
   || one_of [0x130; 0x131; 0x17F; 0x212A; 0x3A3; 0x3C2; 0x3C3] c)%N.

Definition latin_case_ignorable (c : cp) : bool :=
  (one_of [0x27; 0x2E; 0x3A; 0x5E; 0x60; 0xA8; 0xAD; 0xAF; 0xB4; 0xB7; 0xB8] c
   || latin_category_Mn c)%N.

Definition latin_space (c : cp) : bool :=
  (in_range 0x09 0x0D c || in_range 0x1C 0x20 c || one_of [0x85; 0xA0] c)%N.

(** The Arabic-Indic digits U+0660..U+0669. *)
Definition latin_decimal (c : cp) : option N :=
  if in_range 0x660%N 0x669%N c then Some (c - 0x660)%N else None.

Definition latin : UCD := {|
  decomposition := latin_decomposition;
  combining := latin_combining;
  category_Mn := latin_category_Mn;
  lower_full := latin_lower_full;
  lower_simple := latin_lower_simple;
  cased := latin_cased;
  case_ignorable := latin_case_ignorable;
  space := latin_space;
  decimal := latin_decimal
|}.

(** ** Configuration and posts

    [filters.yml] as loaded by [yaml.safe_load]: a key that is absent is
    [None], and every read goes through [dict.get] with its default. *)

Record routes_config := {
  routes_enabled : option bool;
  routes_include : option (list text);
  routes_exclude : option (list text)
}.

Record keywords_config := {
  keywords_enabled : option bool;
  miles_keywords : option (list text)
}.

Record price_config := {
  price_enabled : option bool;
  domestic_max : option num;
  international_max : option num
}.

Record airlines_config := {
  airlines_enabled : option bool;
  airlines_include : option (list text);
  airlines_exclude : option (list text)
}.

Record advanced_config := {
  log_rejected_posts : option bool
}.

Record filters_config := {
  enabled : option bool;
  routes : option routes_config;
  keywords : option keywords_config;
  price : option price_config;
  airlines : option airlines_config;
  advanced : option advanced_config
}.

(** [d.get(key, default)] *)
Definition get {A} (v : option A) (default : A) : A :=
  match v with
  | Some a => a
  | None => default
  end.

(** [section.get(key, default)] on a section that may itself be absent
    ([filters_config.get(name, {})]). *)
Definition get_in {S A} (s : option S) (field : S -> option A) (default : A)
  : A :=
  match s with
  | Some c => get (field c) default
  | None => default
  end.

(** The keys of a post that the filters read. *)
Record post := {
  feed_name : option text;
  title : option text;
  summary : option text
}.

(** [f"{title} {summary}"] *)
Definition full_text (title summary : text) : text :=
  title ++ 32%N :: summary.

(** ** The rule matcher *)

Section Filters.
Variable U : UCD.
Variable config : filters_config.

(** *** [check_route_filter] *)

Definition arrow : text := u8" -> ".

(** One entry of a route list against the normalized text.  Unpacking
    [route.split(' -> ')] into two names raises [ValueError] when the
    entry holds the separator more than once. *)
Definition route_mentioned (normalized_text route : text) : result bool :=
  if contains arrow route then
    match split arrow route with
    | [origin; destination] =>
        Ok (contains (normalize_text U origin) normalized_text
            && contains (normalize_text U destination) normalized_text)
    | _ => Raise ValueError
    end
  else Ok (contains (normalize_text U route) normalized_text).

(** The loop over a route list, left at the first entry mentioned. *)
Fixpoint any_route (normalized_text : text) (rs : list text)
  : result bool :=
  match rs with
  | [] => Ok false
  | r :: rs' =>
      b <- route_mentioned normalized_text r ;;
      if b then Ok true else any_route normalized_text rs'
  end.

Definition check_route_filter (title summary : text) : result bool :=
  if negb (get_in (routes config) routes_enabled false) then Ok true
  else
    let normalized_text :=
      normalize_text U (lower U (full_text title summary)) in
    match get_in (routes config) routes_include [] with
    | (_ :: _) as include_routes => any_route normalized_text include_routes
    | [] =>
        b <- any_route normalized_text
               (get_in (routes config) routes_exclude []) ;;
        Ok (negb b)
    end.

(** *** [check_keyword_filter] *)

Definition padded (t : text) : text := 32%N :: t ++ [32%N].

Definition has_recife (normalized_text : text) : bool :=
  contains (normalize_text U (u8"recife")) normalized_text
  || contains (normalize_text U (u8"pernambuco")) normalized_text
  || contains (u8" rec ") (padded normalized_text)
  || contains (u8"-rec ") normalized_text
  || contains (u8" rec-") normalized_text
  || contains (u8"rec.") normalized_text
  || contains (u8"gru-rec") normalized_text
  || contains (u8"sp-rec") normalized_text
  || contains (u8" pe ") (padded normalized_text)
  || contains (u8"sp-pe") normalized_text
  || contains (u8"para pe ") (padded normalized_text)
  || contains (u8"destino pe") normalized_text
  || contains (u8"rumo pe") normalized_text.

Definition passagem_terms : list text :=
  [ normalize_text U (u8"passagem"); normalize_text U (u8"passagens");
    normalize_text U (u8"voo"); normalize_text U (u8"voos");
    normalize_text U (u8"viagem"); normalize_text U (u8"viagens");
    normalize_text U (u8"azul"); normalize_text U (u8"gol");
    normalize_text U (u8"latam");
    normalize_text U (u8"guarulhos"); normalize_text U (u8"congonhas");
    u8"gru"; u8"cgh";
    normalize_text U (u8"voar"); normalize_text U (u8"aereo");
    normalize_text U (u8"aerea"); normalize_text U (u8"aereas");
    normalize_text U (u8"bilhete"); normalize_text U (u8"bilhetes") ].

Definition has_passagem_terms (normalized_text : text) : bool :=
  existsb (fun term => contains term normalized_text) passagem_terms.

Definition has_miles_terms (normalized_text : text) : bool :=
  existsb (fun term => contains (normalize_text U term) normalized_text)
    (get_in (keywords config) miles_keywords []).

Definition check_keyword_filter (title summary : text) : bool :=
  if negb (get_in (keywords config) keywords_enabled false) then true
  else
    let normalized_text :=
      normalize_text U (lower U (full_text title summary)) in
    has_recife normalized_text
    && (has_passagem_terms normalized_text
        || has_miles_terms normalized_text).

(** *** [check_price_filter] *)

Definition international_words : list text :=
  [ u8"internacional"; u8"europa"; u8"eua"; u8"asia"; u8"africa";
    u8"oceania"; u8"paris"; u8"london"; u8"new york"; u8"tokyo";
    u8"madrid"; u8"rome" ].

Definition is_international (text_ : text) : bool :=
  existsb (fun w => contains w (lower U text_)) international_words.

Definition max_price (text_ : text) : num :=
  if is_international text_
  then get_in (price config) international_max (Int 2500)
  else get_in (price config) domestic_max (Int 800).

Definition check_price_filter (title summary : text) : result bool :=
  if negb (get_in (price config) price_enabled false) then Ok true
  else
    let text_ := full_text title summary in
    p <- extract_price U text_ ;;
    match p with
    | None => Ok true
    | Some price_ => Ok (float_le_num price_ (max_price text_))
    end.

(** *** [check_airline_filter] *)

Definition check_airline_filter (title summary : text) : bool :=
  if negb (get_in (airlines config) airlines_enabled false) then true
  else
    let text_ := lower U (full_text title summary) in
    let mentions := fun airline => contains (lower U airline) text_ in
    let included :=
      match get_in (airlines config) airlines_include [] with
      | [] => true
      | (_ :: _) as include_airlines => existsb mentions include_airlines
      end in
    included
    && negb (existsb mentions (get_in (airlines config) airlines_exclude [])).

(** *** [apply_filters]

    The state it touches: the per-feed count of rejections behind the
    log throttle, and the strings printed, one for each call of
    [print]. *)

Record monitor := {
  rejected_count_per_feed : list (text * nat);
  printed : list text
}.

Definition text_eqb (a b : text) : bool :=
  if list_eq_dec N.eq_dec a b then true else false.

Fixpoint count_of (d : list (text * nat)) (key : text) : option nat :=
  match d with
  | [] => None
  | (k, v) :: d' => if text_eqb k key then Some v else count_of d' key
  end.

Fixpoint set_count (d : list (text * nat)) (key : text) (v : nat)
  : list (text * nat) :=
  match d with
  | [] => [(key, v)]
  | (k, w) :: d' =>
      if text_eqb k key then (k, v) :: d' else (k, w) :: set_count d' key v
  end.

Definition log_rejection (m : monitor) (p : post) (title : text) : monitor :=
  let name := get (feed_name p) (u8"unknown") in
  let count := get (count_of (rejected_count_per_feed m) name) 0 in
  if (count <? 3)%nat then
    {| rejected_count_per_feed :=
         set_count (rejected_count_per_feed m) name (count + 1);
       printed :=
         printed m ++
         [ u8"  🔍 Post filtered out: NÃO é sobre passagens/milhas para Recife";
           u8"    📝 Title: " ++ firstn 60 title ++ u8"..." ] |}
  else if (count =? 3)%nat then
    {| rejected_count_per_feed :=
         set_count (rejected_count_per_feed m) name (count + 1);
       printed :=
         printed m ++
         [ u8"  🔍 ... (mais posts rejeitados - não são sobre Recife)" ] |}
  else m.

Definition apply_filters (m : monitor) (p : post) : bool * monitor :=
  if negb (get (enabled config) false) then (true, m)
  else
    let title_ := get (title p) [] in
    let summary_ := get (summary p) [] in
    let keyword_passed := check_keyword_filter title_ summary_ in
    if negb keyword_passed && get_in (advanced config) log_rejected_posts false
    then (keyword_passed, log_rejection m p title_)
    else (keyword_passed, m).
End Filters.

(** ** The mileage estimator ([estimate_miles_prices]) *)

Record miles_program := {
  rate : float;
  min_miles : Z;
  fees : Z
}.

Definition miles_programs : list (text * miles_program) :=
  [ (u8"Smiles (GOL)",
      {| rate := 0.025; min_miles := 15000; fees := 120 |});
    (u8"TudoAzul (Azul)",
      {| rate := 0.022; min_miles := 12000; fees := 140 |});
    (u8"LATAM Pass",
      {| rate := 0.020; min_miles := 17000; fees := 100 |});
    (u8"Livelo",
      {| rate := 0.030; min_miles := 20000; fees := 80 |}) ].

Record miles_estimate := {
  estimated_miles : Z;
  fees_brl : Z;
  total_cost_brl : Z;
  savings_vs_cash : float;
  worth_using_miles : bool
}.

(** The float of an int, as taken by [cash_price - fees]; the fees of the
    table are small integers, which floats hold exactly. *)
Definition float_of_int (z : Z) : float :=
  SF2Prim (binary_normalize prec emax z 0 false).

Definition estimate_program (cash_price : float) (c : miles_program)
  : result miles_estimate :=
  points <- py_int (cash_price * rate c * 1000)%float ;;
  let savings := (cash_price - float_of_int (fees c))%float in
  Ok {| estimated_miles := Z.max points (min_miles c);
        fees_brl := fees c;
        total_cost_brl := fees c;
        savings_vs_cash := savings;
        worth_using_miles := (50 <? savings)%float |}.

(** The loop that fills [estimates], in the order of the table. *)
Fixpoint estimate_programs (cash_price : float)
  (ps : list (text * miles_program)) : result (list (text * miles_estimate)) :=
  match ps with
  | [] => Ok []
  | (name, c) :: ps' =>
      e <- estimate_program cash_price c ;;
      es <- estimate_programs cash_price ps' ;;
      Ok ((name, e) :: es)
  end.

(** [min(estimates.keys(), key=...)]: the first key of least value. *)
Definition fewer_miles (best x : text * miles_estimate)
  : text * miles_estimate :=
  if (estimated_miles (snd x) <? estimated_miles (snd best))%Z
  then x else best.

Definition min_by_miles (es : list (text * miles_estimate))
  : result (text * miles_estimate) :=
  match es with
  | [] => Raise ValueError
  | e :: es' => Ok (fold_left fewer_miles es' e)
  end.

Record miles_estimates := {
  cash_price_reference : float;
  programs : list (text * miles_estimate);
  best_miles_option : text
}.

Definition estimate_miles_prices (cash_price : float)
  : result miles_estimates :=
  es <- estimate_programs cash_price miles_programs ;;
  best <- min_by_miles es ;;
  Ok {| cash_price_reference := cash_price;
        programs := es;
        best_miles_option := fst best |}.

(** ** The deal scorer *)

Inductive deal_quality := RUIM | EXCELENTE | MUITO_BOA | BOA | REGULAR.

(** [_rate_deal_quality] *)
Definition _rate_deal_quality (promo_price market_price : float)
  : result deal_quality :=
  if (market_price <=? promo_price)%float then Ok RUIM
  else
    q <- py_div (market_price - promo_price) market_price ;;
    let savings_pct := (q * 100)%float in
    Ok (if (30 <=? savings_pct)%float then EXCELENTE
        else if (15 <=? savings_pct)%float then MUITO_BOA
        else if (5 <=? savings_pct)%float then BOA
        else REGULAR).

(** The keys that [enhance_post_with_price_analysis] adds to
    [deal_analysis] when the post carries a promotion price. *)
Record deal := {
  promotion_price_brl : float;
  savings_vs_market : float;
  discount_percentage : num;
  is_good_deal : bool;
  deal_quality_ : deal_quality
}.

(** [if promo_price:] an absent price and a price of zero are both false. *)
Definition truthy (promo_price : option float) : option float :=
  match promo_price with
  | Some p => if (p =? 0)%float then None else Some p
  | None => None
  end.

(** The scoring block of [enhance_post_with_price_analysis]: [Ok None]
    stands for the branch that records no promotion price. *)
Definition score_deal (promo_price : option float)
  (current_market_price : float) : result (option deal) :=
  match truthy promo_price with
  | Some p =>
      let savings := (current_market_price - p)%float in
      discount <-
        (if (0 <? current_market_price)%float
         then q <- py_div savings current_market_price ;;
              Ok (Float (py_round1 (q * 100)%float))
         else Ok (Int 0)) ;;
      quality <- _rate_deal_quality p current_market_price ;;
      Ok (Some {| promotion_price_brl := p;
                  savings_vs_market := savings;
                  discount_percentage := discount;
                  is_good_deal := (50 <? savings)%float && (p <? 500)%float;
                  deal_quality_ := quality |})
  | None => Ok None
  end.

Record miles_alternative := {
  best_program : text;
  alternative_miles : Z;
  alternative_worth : bool
}.

Fixpoint program_of (es : list (text * miles_estimate)) (name : text)
  : option miles_estimate :=
  match es with
  | [] => None
  | (k, e) :: es' => if text_eqb k name then Some e else program_of es' name
  end.

(** The miles block of [enhance_post_with_price_analysis]. *)
Definition score_miles (promo_price : option float)
  : result (option miles_alternative) :=
  match truthy promo_price with
  | Some p =>
      m <- estimate_miles_prices p ;;
      match program_of (programs m) (best_miles_option m) with
      | Some e =>
          Ok (Some {| best_program := best_miles_option m;
                      alternative_miles := estimated_miles e;
                      alternative_worth := worth_using_miles e |})
      | None => Raise ValueError
      end
  | None => Ok None
  end.

Record price_analysis := {
  current_market_price_brl : float;
  market_price_rating : text;
  has_promotion_price : bool;
  deal_ : option deal;
  miles_alternative_ : option miles_alternative
}.

(** What [enhance_post_with_price_analysis] leaves under the key
    [price_analysis] of the post. *)
Inductive enrichment :=
| Untouched
| Analysed (a : price_analysis)
| Failed (e : py_error).

Section Enrichment.
Variable U : UCD.

(** [_is_post_about_recife_flights] *)
Definition _is_post_about_recife_flights (p : post) : bool :=
  let text_ := lower U (full_text (get (title p) []) (get (summary p) [])) in
  existsb (fun term => contains term text_)
    [ u8"recife"; u8"pernambuco"; u8" pe "; u8" rec "; u8"-rec";
      u8"gru-rec"; u8"sp-rec" ]
  && existsb (fun term => contains term text_)
    [ u8"voo"; u8"voos"; u8"passagem"; u8"passagens"; u8"voar";
      u8"aereo"; u8"aerea" ].

(** [market] is the answer of the price collaborator: the cheapest
    market price and its rating, or [None] when it reports an error. *)
Definition enhance_post_with_price_analysis (p : post)
  (market : option (float * text)) : enrichment :=
  if negb (_is_post_about_recife_flights p) then Untouched
  else
    match market with
    | None => Untouched
    | Some (current_market_price, price_rating) =>
        let r :=
          promo_price <-
            extract_price U
              (full_text (get (title p) []) (get (summary p) [])) ;;
          d <- score_deal promo_price current_market_price ;;
          m <- score_miles promo_price ;;
          Ok {| current_market_price_brl := current_market_price;
                market_price_rating := price_rating;
                has_promotion_price :=
                  match promo_price with Some _ => true | None => false end;
                deal_ := d;
                miles_alternative_ := m |} in
        match r with
        | Ok a => Analysed a
        | Raise e => Failed e
        end
    end.
End Enrichment.

(** ** Definitions used by the statements *)

(** The text that the route and keyword predicates search. *)
Definition post_text (U : UCD) (title summary : text) : text :=
  normalize_text U (lower U (full_text title summary)).





(** The keywords by which the price predicate takes a post for
    international. *)
Definition foreign_keywords : list text :=
  [ u8"internacional"; u8"europa"; u8"eua"; u8"asia"; u8"africa";
    u8"oceania"; u8"paris"; u8"london"; u8"new york"; u8"tokyo";
    u8"madrid"; u8"rome" ].

(** A configuration whose keyword section is switched on, with the given
    mileage keywords. *)
Definition keywords_on (ks : list text) : filters_config :=
  {| enabled := Some true;
     routes := None;
     keywords := Some {| keywords_enabled := Some true;
                         miles_keywords := Some ks |};
     price := None;
     airlines := None;
     advanced := None |}.

Definition sample_miles_keywords : list text :=
  [ u8"milhas"; u8"smiles"; u8"tudoazul"; u8"latam pass"; u8"livelo" ].

(** The configuration with other route, price and airline sections. *)
Definition with_sections (config : filters_config)
  (r : option routes_config) (p : option price_config)
  (a : option airlines_config) : filters_config :=
  {| enabled := enabled config;
     routes := r;
     keywords := keywords config;
     price := p;
     airlines := a;
     advanced := advanced config |}.

(** A configuration whose route, price and airline sections all reject the
    post below, while its keyword section admits it. *)
Definition strict_sections : filters_config :=
  {| enabled := Some true;
     routes := Some {| routes_enabled := Some true;
                       routes_include := Some [u8"Rio de Janeiro -> Salvador"];
                       routes_exclude := Some [u8"Recife"] |};
     keywords := Some {| keywords_enabled := Some true;
                         miles_keywords := Some sample_miles_keywords |};
     price := Some {| price_enabled := Some true;
                      domestic_max := Some (Int 100);
                      international_max := Some (Int 100) |};
     airlines := Some {| airlines_enabled := Some true;
                         airlines_include := Some [u8"GOL"];
                         airlines_exclude := Some [u8"Azul"] |};
     advanced := Some {| log_rejected_posts := Some true |} |}.

Definition azul_post : post :=
  {| feed_name := Some (u8"Melhores Destinos");
     title := Some (u8"Passagem para Recife por R$ 999 pela Azul");
     summary := Some (u8"Saindo de São Paulo") |}.

Definition fresh_monitor : monitor :=
  {| rejected_count_per_feed := []; printed := [] |}.

(** The strings that a pattern can match, whatever the order in which the
    matcher tries them. *)
Inductive lang : regex -> text -> Prop :=
| lang_eps : lang Eps []
| lang_chr p c : p c = true -> lang (Chr p) [c]
| lang_seq r1 r2 w1 w2 :
    lang r1 w1 -> lang r2 w2 -> lang (Seq r1 r2) (w1 ++ w2)
| lang_star_stop r : lang (Star r) []
| lang_star_more r w1 w2 :
    lang r w1 -> lang (Star r) w2 -> lang (Star r) (w1 ++ w2)
| lang_rep_stop hi r : lang (Rep 0 hi r) []
| lang_rep_more lo hi r w1 w2 :
    lang r w1 -> lang (Rep (pred lo) hi r) w2 ->
    lang (Rep lo (S hi) r) (w1 ++ w2)
| lang_group r w : lang r w -> lang (Group r) w.

Fixpoint no_group (r : regex) : bool :=
  match r with
  | Eps | Chr _ => true
  | Seq r1 r2 => no_group r1 && no_group r2
  | Star r0 | Rep _ _ r0 => no_group r0
  | Group _ => false
  end.

(** What a successful run of a matcher [m] for [r] gives: the input splits
    into a string of the language and a rest on which the continuation
    succeeded, with the capture it was handed. *)
Definition run_of {A} (r : regex) (m : matcher A) : Prop :=
  forall s g (k : cont A) x,
    m s g k = Some x ->
    exists w s1 g1,
      s = w ++ s1 /\ lang r w /\ k s1 g1 = Some x /\
      (no_group r = true -> g1 = g).

(** [s.replace('.', '')] and [s.replace(',', '.')], character by
    character. *)
Definition drop_points : text -> text :=
  flat_map (fun c => if (point =? c)%N then [] else [c]).

Definition commas_to_points : text -> text :=
  flat_map (fun c => if (comma =? c)%N then [point] else [c]).

(** [extract_price] with the first two patterns only: the bare currency
    pattern and the "reais" pattern. *)
Definition extract_price_two (U : UCD) (t : text) : result (option float) :=
  match t with
  | [] => Ok None
  | _ :: _ => try_patterns U [pattern_currency U; pattern_reais U] t
  end.

(** A pattern yields no price for [t]: it matches nowhere, or the group
    of its first match is refused by [float]. *)
Definition yields_no_price (U : UCD) (p : regex) (t : text) : Prop :=
  match findall p t with
  | [] => True
  | g :: _ => py_float U (price_str g) = Raise ValueError
  end.

(** A configuration whose price section is switched on with the given
    thresholds. *)
Definition price_on (domestic international : option num) : filters_config :=
  {| enabled := Some true;
     routes := None;
     keywords := None;
     price := Some {| price_enabled := Some true;
                      domestic_max := domestic;
                      international_max := international |};
     airlines := None;
     advanced := None |}.

(** A configuration whose route section is switched on with the given
    lists. *)
Definition routes_on (include exclude : list text) : filters_config :=
  {| enabled := Some true;
     routes := Some {| routes_enabled := Some true;
                       routes_include := Some include;
                       routes_exclude := Some exclude |};
     keywords := None;
     price := None;
     airlines := None;
     advanced := None |}.

(** The configuration with another exclude list of routes. *)
Definition with_route_exclude (config : filters_config)
  (exclude : option (list text)) : filters_config :=
  {| enabled := enabled config;
     routes :=
       match routes config with
       | Some r => Some {| routes_enabled := routes_enabled r;
                           routes_include := routes_include r;
                           routes_exclude := exclude |}
       | None => None
       end;
     keywords := keywords config;
     price := price config;
     airlines := airlines config;
     advanced := advanced config |}.

(** An entry of a route list is either a bare location or an origin and a
    destination around one separator. *)
Definition entry_ok (route : text) : bool :=
  negb (contains arrow route) || (length (split arrow route) =? 2)%nat.

(** A route entry matches when both its origin and its destination occur
    in the normalized text of the post; a bare location matches when its
    normalized form occurs. *)
Definition entry_matches (U : UCD) (normalized_text route : text) : bool :=
  if contains arrow route then
    match split arrow route with
    | [origin; destination] =>
        contains (normalize_text U origin) normalized_text
        && contains (normalize_text U destination) normalized_text
    | _ => false
    end
  else contains (normalize_text U route) normalized_text.

(** The grade of a deal in the words of the specification: bad when the
    promotion price is not below the market price, else by the savings
    percentage: at least 30 excellent, at least 15 very good, at least 5
    good, regular otherwise. *)
Definition quality_of_savings (promo_price market_price : float)
  : deal_quality :=
  if (market_price <=? promo_price)%float then RUIM
  else
    let savings_pct :=
      ((market_price - promo_price) / market_price * 100)%float in
    if (30 <=? savings_pct)%float then EXCELENTE
    else if (15 <=? savings_pct)%float then MUITO_BOA
    else if (5 <=? savings_pct)%float then BOA
    else REGULAR.

(** The score of a promotion price against a market price in the words
    of the specification. *)
Definition deal_of_prices (promo_price market_price : float) : deal :=
  let savings := (market_price - promo_price)%float in
  {| promotion_price_brl := promo_price;
     savings_vs_market := savings;
     discount_percentage :=
       if (0 <? market_price)%float
       then Float (py_round1 (savings / market_price * 100)%float)
       else Int 0;
     is_good_deal := (50 <? savings)%float && (promo_price <? 500)%float;
     deal_quality_ := quality_of_savings promo_price market_price |}.

Definition free_post : post :=
  {| feed_name := Some (u8"Melhores Destinos");
     title := Some (u8"Passagem para Recife com taxa de R$ 0");
     summary := Some [] |}.

(** A float that is not negative: a zero, a finite float or an infinity of
    positive sign (a NaN has no sign). *)
Definition not_negative (x : spec_float) : Prop :=
  match x with
  | S754_zero _ => True
  | S754_finite s _ _ | S754_infinity s => s = false
  | S754_nan => True
  end.

(** The estimate of a program in the words of the specification, given
    the floor of [cash_price * rate * 1000]. *)
Definition estimate_of (cash_price : float) (c : miles_program) (points : Z)
  : miles_estimate :=
  {| estimated_miles := Z.max points (min_miles c);
     fees_brl := fees c;
     total_cost_brl := fees c;
     savings_vs_cash := (cash_price - float_of_int (fees c))%float;
     worth_using_miles :=
       (50 <? cash_price - float_of_int (fees c))%float |}.

(** The product that [estimate_program] truncates stays finite. *)
Definition points_finite (cash_price : float) (c : miles_program) : bool :=
  is_finite (cash_price * rate c * 1000)%float.

(** *** Word-bounded tokens

    [tok] occurs in [t] as a token when an occurrence has, on its left,
    the start of the text, a space or a hyphen and, on its right, the end
    of the text, a space or a hyphen. *)

Definition is_boundary (c : cp) : bool := ((c =? 32) || (c =? 45))%N.

(** [t] begins with [tok], closed on the right. *)
Definition token_here (tok t : text) : bool :=
  starts_with tok t &&
  match skipn (length tok) t with
  | [] => true
  | c :: _ => is_boundary c
  end.

(** An occurrence of [tok] right after a boundary character of [t]. *)
Fixpoint token_after (tok t : text) : bool :=
  match t with
  | [] => false
  | c :: t' => (is_boundary c && token_here tok t') || token_after tok t'
  end.

Definition bounded_token (tok t : text) : bool :=
  token_here tok t || token_after tok t.

Definition spaceless (tok : text) : bool :=
  forallb (fun c => negb (c =? 32)%N) tok.

(** *** Characters on which normalization settles

    A character is [settled] when normalization leaves it alone: it is
    its own decomposition, of combining class 0, not a nonspacing mark,
    its own lowercase, and not the capital sigma (whose lowercase depends
    on the context). *)

Definition settled (U : UCD) (e : cp) : bool :=
  text_eqb (decomposition U e) [e]
  && (combining U e =? 0)%N
  && negb (category_Mn U e)
  && text_eqb (lower_full U e) [e]
  && negb (e =? capital_sigma)%N.

(** The characters that [lower] can put in place of [d]. *)
Definition lower_outputs (U : UCD) (d : cp) : text :=
  if (d =? capital_sigma)%N then [small_sigma; final_sigma]
  else lower_full U d.

(** What is asked of a character that survives the removal of marks: it
    is of class 0 and its lowercase forms are settled. *)
Definition base_ok (U : UCD) (d : cp) : bool :=
  (combining U d =? 0)%N && forallb (settled U) (lower_outputs U d).

(** A character is [plain] when each character of its decomposition is a
    nonspacing mark or such a base. *)
Definition plain (U : UCD) (c : cp) : bool :=
  forallb (fun d => category_Mn U d || base_ok U d) (decomposition U c).

(** The code points U+0000..U+00FF. *)
Definition latin1 : text := map N.of_nat (seq 0 256).

(** Musical symbol combining augmentation dot (a spacing mark of class
    226), Devanagari vowel sign u (a nonspacing mark of class 0) and the
    Hangul single dot tone mark (a spacing mark of class 224). *)
Definition marks_out_of_order : text := [0x1D16D; 0x941; 0x302E]%N.

(** * Beyond the claims: the feed loop, the notifications, the helpers *)

(** ** Integers as text *)

(** [str(n)]: the decimal digits of an int. *)
Fixpoint uint_digits (d : Decimal.uint) : text :=
  match d with
  | Decimal.Nil => []
  | Decimal.D0 d' => 48%N :: uint_digits d'
  | Decimal.D1 d' => 49%N :: uint_digits d'
  | Decimal.D2 d' => 50%N :: uint_digits d'
  | Decimal.D3 d' => 51%N :: uint_digits d'
  | Decimal.D4 d' => 52%N :: uint_digits d'
  | Decimal.D5 d' => 53%N :: uint_digits d'
  | Decimal.D6 d' => 54%N :: uint_digits d'
  | Decimal.D7 d' => 55%N :: uint_digits d'
  | Decimal.D8 d' => 56%N :: uint_digits d'
  | Decimal.D9 d' => 57%N :: uint_digits d'
  end.

Definition str_of_nat (n : nat) : text := uint_digits (Nat.to_uint n).

Definition str_of_int (z : Z) : text :=
  if (z <? 0)%Z then 45%N :: str_of_nat (Z.abs_nat z)
  else str_of_nat (Z.to_nat z).

Definition newline : cp := 10%N.

(** ** The posts that [fetch_feed] builds *)

(** An entry of a parsed feed: the keys that [fetch_feed] reads, with
    strings for values as the feed parser delivers them.  The publication
    date, which no decision reads, is left out: the entries are taken to
    carry a date that [datetime] accepts, or none, so that building the
    post raises nothing. *)
Record entry := {
  entry_id : option text;
  entry_link : option text;
  entry_title : option text;
  entry_summary : option text;
  entry_description : option text
}.

(** The dict of a post, with the two keys that the enrichment stages may
    add ([aviation_enhanced] is [false] when the key is absent); the two
    timestamps are left out. *)
Record feed_post := {
  fp_id : text;
  fp_feed_name : text;
  fp_title : text;
  fp_link : text;
  fp_summary : text;
  fp_aviation_enhanced : bool;
  fp_price_analysis : enrichment
}.

(** The post as the filters read it. *)
Definition as_post (p : feed_post) : post :=
  {| feed_name := Some (fp_feed_name p);
     title := Some (fp_title p);
     summary := Some (fp_summary p) |}.

(** [seen_posts] is a set of ids. *)
Definition is_seen (seen : list text) (i : text) : bool :=
  existsb (text_eqb i) seen.

Definition add_seen (seen : list text) (i : text) : list text :=
  if is_seen seen i then seen else i :: seen.

(** What a run of the monitor keeps: the ids seen, the posts that passed
    and those that did not, and the state of the rejection log. *)
Record run_state := {
  seen_posts : list text;
  filtered_posts : list feed_post;
  rejected_posts : list feed_post;
  rejection_log : monitor
}.

Section Feed.
Variable U : UCD.
Variable config : filters_config.

(** Whether the aviation module was imported, and the price checker with
    the answer of the price collaborator for the hour ([None] when the
    module was not imported). *)
Variable aviation_apis : bool.
Variable price_checker : option (option (float * text)).

(** [AviationAPIIntegration.enhance_post_with_apis] *)
Definition enhance_post_with_apis (p : feed_post) : feed_post :=
  let text_ := full_text (get (title (as_post p)) [])
                 (get (summary (as_post p)) []) in
  if existsb (fun term => contains term (lower U text_))
       [ u8"recife"; u8"pernambuco"; u8" pe "; u8"rec" ]
  then {| fp_id := fp_id p;
          fp_feed_name := fp_feed_name p;
          fp_title := fp_title p;
          fp_link := fp_link p;
          fp_summary := fp_summary p;
          fp_aviation_enhanced := true;
          fp_price_analysis := fp_price_analysis p |}
  else p.

(** The call of [enhance_post_with_price_analysis] on the dict of a post:
    the key [price_analysis] is set unless the post is left untouched. *)
Definition with_price_analysis (market : option (float * text))
  (p : feed_post) : feed_post :=
  match enhance_post_with_price_analysis U (as_post p) market with
  | Untouched => p
  | a =>
      {| fp_id := fp_id p;
         fp_feed_name := fp_feed_name p;
         fp_title := fp_title p;
         fp_link := fp_link p;
         fp_summary := fp_summary p;
         fp_aviation_enhanced := fp_aviation_enhanced p;
         fp_price_analysis := a |}
  end.

(** [entry.get('id', entry.get('link', entry.get('title', '')))] *)
Definition entry_key (e : entry) : text :=
  get (entry_id e) (get (entry_link e) (get (entry_title e) [])).

(** [f"{feed_name}:{key}".strip()] *)
Definition make_post_id (name : text) (e : entry) : text :=
  strip U (name ++ 58%N :: entry_key e).

(** [s.endswith(':')] *)
Definition ends_with_colon (s : text) : bool :=
  match rev s with
  | c :: _ => (c =? 58)%N
  | [] => false
  end.

Definition is_empty (s : text) : bool :=
  match s with [] => true | _ :: _ => false end.

(** The dict built for an entry. *)
Definition make_post (name post_id : text) (e : entry) : feed_post :=
  {| fp_id := post_id;
     fp_feed_name := name;
     fp_title := strip U (get (entry_title e) (u8"No title"));
     fp_link := get (entry_link e) [];
     fp_summary := get (entry_summary e) (get (entry_description e) []);
     fp_aviation_enhanced := false;
     fp_price_analysis := Untouched |}.

(** The body of the loop of [fetch_feed] over the entries: [posts] is the
    list that [fetch_feed] returns. *)
Definition process_entry (name : text)
  (acc : list feed_post * run_state) (e : entry)
  : list feed_post * run_state :=
  let (posts, st) := acc in
  let post_id := make_post_id name e in
  if is_empty post_id || ends_with_colon post_id then acc
  else if is_seen (seen_posts st) post_id then acc
  else
    let p := make_post name post_id e in
    let (passed, log) := apply_filters U config (rejection_log st) (as_post p) in
    if passed then
      let p1 := if aviation_apis then enhance_post_with_apis p else p in
      let p2 := match price_checker with
                | Some market => with_price_analysis market p1
                | None => p1
                end in
      (posts ++ [p2],
       {| seen_posts := add_seen (seen_posts st) post_id;
          filtered_posts := filtered_posts st ++ [p2];
          rejected_posts := rejected_posts st;
          rejection_log := log |})
    else
      (posts,
       {| seen_posts := add_seen (seen_posts st) post_id;
          filtered_posts := filtered_posts st;
          rejected_posts := rejected_posts st ++ [p];
          rejection_log := log |}).

(** [fetch_feed] once the feed is retrieved and parsed: the loop over the
    five latest entries. *)
Definition fetch_feed (name : text) (entries : list entry) (st : run_state)
  : list feed_post * run_state :=
  fold_left (process_entry name) (firstn 5 entries) ([], st).

(** The loop of [monitor_feeds] over the feeds that were retrieved, each
    with its name and entries: [new_posts] collects what [fetch_feed]
    returns. *)
Definition collect_feed (acc : list feed_post * run_state)
  (feed : text * list entry) : list feed_post * run_state :=
  let (new_posts, st) := acc in
  let (posts, st') := fetch_feed (fst feed) (snd feed) st in
  (new_posts ++ posts, st').

Definition collect_feeds (feeds : list (text * list entry)) (st : run_state)
  : list feed_post * run_state :=
  fold_left collect_feed feeds ([], st).

(** The state of a monitor that starts with the given seen ids. *)
Definition start_state (seen : list text) : run_state :=
  {| seen_posts := seen;
     filtered_posts := [];
     rejected_posts := [];
     rejection_log := {| rejected_count_per_feed := []; printed := [] |} |}.

(** The posts that [monitor_feeds] leaves in [new_posts] for the
    notifications: none when filtering is enabled and fewer than
    [min_posts] passed, else the filtered posts when filtering is enabled
    and the collected posts when it is not.  [min_posts] is
    [advanced.min_posts_to_notify] (1 when absent). *)
Definition select_new_posts (min_posts : Z) (new_posts : list feed_post)
  (st : run_state) : list feed_post :=
  if get (enabled config) false
     && (Z.of_nat (length (filtered_posts st)) <? min_posts)%Z
  then []
  else if get (enabled config) false then filtered_posts st
  else new_posts.
End Feed.

(** An entry whose id is unusable or already seen is passed over by
    [fetch_feed]. *)
Definition passed_over (U : UCD) (name : text) (seen : list text) (e : entry)
  : bool :=
  is_empty (make_post_id U name e)
  || ends_with_colon (make_post_id U name e)
  || is_seen seen (make_post_id U name e).

(** The decision of [apply_filters] on the dict of a post. *)
Definition admitted (U : UCD) (config : filters_config) (p : feed_post)
  : bool :=
  negb (get (enabled config) false)
  || check_keyword_filter U config (fp_title p) (fp_summary p).

(** The dict that [fetch_feed] builds for an entry, before the filters
    see it. *)
Definition post_of_entry (U : UCD) (name : text) (e : entry) : feed_post :=
  make_post U name (make_post_id U name e) e.

(** The two enrichment stages that a post goes through once it has
    passed the filters. *)
Definition enriched (U : UCD) (aviation_apis : bool)
  (price_checker : option (option (float * text))) (p : feed_post)
  : feed_post :=
  let p1 := if aviation_apis then enhance_post_with_apis U p else p in
  match price_checker with
  | Some market => with_price_analysis U market p1
  | None => p1
  end.

(** The new entries among [es], for a set [seen] of ids: those with a
    usable id that is neither in [seen] nor the id of an earlier new
    entry, in their order. *)
Fixpoint new_entries (U : UCD) (name : text) (seen : list text)
  (es : list entry) : list entry :=
  match es with
  | [] => []
  | e :: es' =>
      if passed_over U name seen e then new_entries U name seen es'
      else e :: new_entries U name
                  (add_seen seen (make_post_id U name e)) es'
  end.

(** What holds of the posts collected so far, [fst acc], in a run that
    started in the state [st0]: they are the posts appended to
    [filtered_posts], their ids differ from each other, none was seen at
    the start and all are seen now, and no id has been forgotten. *)
Definition collected_fresh (st0 : run_state)
  (acc : list feed_post * run_state) : Prop :=
  filtered_posts (snd acc) = filtered_posts st0 ++ fst acc
  /\ NoDup (map fp_id (fst acc))
  /\ (forall p, In p (fst acc) ->
        is_seen (seen_posts st0) (fp_id p) = false
        /\ is_seen (seen_posts (snd acc)) (fp_id p) = true)
  /\ (forall i, is_seen (seen_posts st0) i = true ->
        is_seen (seen_posts (snd acc)) i = true).

(** ** The rejection log *)

(** The number of calls of [print] that the log has made for a feed
    whose counter is [n]: two for each of the first three rejections, one
    more for the fourth. *)
Definition prints_for (n : nat) : nat :=
  if (n <=? 3)%nat then 2 * n else 7.

Definition total_prints (d : list (text * nat)) : nat :=
  list_sum (map (fun kv => prints_for (snd kv)) d).

(** The state of the log is sound: no counter is above 4 and the calls
    of [print] made are those the counters account for. *)
Definition log_sound (m : monitor) : Prop :=
  Forall (fun kv => (snd kv <= 4)%nat) (rejected_count_per_feed m)
  /\ length (printed m) = total_prints (rejected_count_per_feed m).

(** ** The lists of the route and airline predicates *)

(** The list that [check_route_filter] goes through: the include list
    when it is not empty, the exclude list otherwise. *)
Definition consulted_routes (config : filters_config) : list text :=
  match get_in (routes config) routes_include [] with
  | [] => get_in (routes config) routes_exclude []
  | (_ :: _) as include_routes => include_routes
  end.

(** The loop over a route list comes to an entry that cannot be unpacked
    into an origin and a destination: the entries before it are
    well-formed and none of them matches. *)
Fixpoint reaches_malformed (U : UCD) (normalized_text : text)
  (rs : list text) : bool :=
  match rs with
  | [] => false
  | r :: rs' =>
      if entry_ok r
      then negb (entry_matches U normalized_text r)
           && reaches_malformed U normalized_text rs'
      else true
  end.

(** A configuration whose airline section is switched on with the given
    lists. *)
Definition airlines_on (include exclude : list text) : filters_config :=
  {| enabled := Some true;
     routes := None;
     keywords := None;
     price := None;
     airlines := Some {| airlines_enabled := Some true;
                         airlines_include := Some include;
                         airlines_exclude := Some exclude |};
     advanced := None |}.

(** ** The amount that [extract_price] reads *)

(** The group of the first match of the bare currency pattern, or, when
    that pattern matches nowhere, of the first match of the "reais"
    pattern. *)
Definition first_amount (U : UCD) (t : text) : option text :=
  match findall (pattern_currency U) t with
  | g :: _ => Some g
  | [] =>
      match findall (pattern_reais U) t with
      | g :: _ => Some g
      | [] => None
      end
  end.

(** ** Text without white space at its ends *)

Definition unspaced_ends (U : UCD) (s : text) : bool :=
  match s with [] => true | c :: _ => negb (space U c) end
  && match rev s with [] => true | c :: _ => negb (space U c) end.

(** ** The two enrichment stages together *)

(** A post that carries a price analysis is flagged by the aviation stage
    and is about flights to Recife. *)
Definition analysis_is_flagged (U : UCD) (q : feed_post) : bool :=
  match fp_price_analysis q with
  | Untouched => true
  | _ => fp_aviation_enhanced q && _is_post_about_recife_flights U (as_post q)
  end.

(** The lowercased text that both enrichment stages search. *)
Definition lowered_text (U : UCD) (p : feed_post) : text :=
  lower U (full_text (fp_title p) (fp_summary p)).

(** ** The message of [send_telegram_notification] *)

(** [feed_posts]: the dict from feed names to the posts of the feed, in
    the order in which the names were first met. *)
Fixpoint add_to_feed (d : list (text * list feed_post)) (p : feed_post)
  : list (text * list feed_post) :=
  match d with
  | [] => [(fp_feed_name p, [p])]
  | (k, ps) :: d' =>
      if text_eqb k (fp_feed_name p) then (k, ps ++ [p]) :: d'
      else (k, ps) :: add_to_feed d' p
  end.

Definition group_by_feed (new_posts : list feed_post)
  : list (text * list feed_post) :=
  fold_left add_to_feed new_posts [].

(** [post['title'][:80] + "..." if len(post['title']) > 80 else
    post['title']] *)
Definition shown_title (t : text) : text :=
  if (80 <? length t)%nat then firstn 80 t ++ u8"..." else t.

Definition post_line (p : feed_post) : text :=
  u8"📝 [" ++ shown_title (fp_title p) ++ u8"](" ++ fp_link p ++ u8")"
  ++ [newline].

(** The inner loop, over the first two posts of a feed; the state is the
    message and [total_shown]. *)
Fixpoint show_posts (posts : list feed_post) (acc : text * nat)
  : text * nat :=
  match posts with
  | [] => acc
  | p :: posts' =>
      let (message, total_shown) := acc in
      if (8 <=? total_shown)%nat then acc
      else show_posts posts' (message ++ post_line p, S total_shown)
  end.

(** The outer loop, over the feeds. *)
Fixpoint show_feeds (d : list (text * list feed_post)) (acc : text * nat)
  : text * nat :=
  match d with
  | [] => acc
  | (name, posts) :: d' =>
      let (message, total_shown) := acc in
      if (8 <=? total_shown)%nat then acc
      else
        let (message1, total_shown1) :=
          show_posts (firstn 2 posts)
            (message ++ u8"📰 *" ++ name ++ u8"*" ++ [newline],
             total_shown) in
        show_feeds d' (message1 ++ [newline], total_shown1)
  end.

Definition telegram_body (new_posts : list feed_post) : text * nat :=
  show_feeds (group_by_feed new_posts)
    (u8"🔥 *NOVAS PROMOÇÕES ENCONTRADAS!*" ++ [newline; newline], 0%nat).

(** The text handed to the Telegram API when the bot token and the chat
    id are set, [None] when there is no new post; [detected_at] is the
    time of the run as [strftime] prints it. *)
Definition telegram_message (detected_at : text)
  (new_posts : list feed_post) : option text :=
  match new_posts with
  | [] => None
  | _ :: _ =>
      let (message, total_shown) := telegram_body new_posts in
      let remaining :=
        (Z.of_nat (length new_posts) - Z.of_nat total_shown)%Z in
      let message :=
        if (0 <? remaining)%Z
        then message ++ u8"... e mais " ++ str_of_int remaining
             ++ u8" promoções!" ++ [newline; newline]
        else message in
      Some (message ++ u8"📊 *Total:* "
            ++ str_of_int (Z.of_nat (length new_posts))
            ++ u8" novas promoções" ++ [newline]
            ++ u8"⏰ *Detectado em:* " ++ detected_at)
  end.

(** The posts of one feed among [posts], in their order. *)
Definition posts_of_feed (name : text) (posts : list feed_post)
  : list feed_post :=
  filter (fun p => text_eqb name (fp_feed_name p)) posts.

(** The feed names of the posts, each once, in the order in which they
    first appear; [seen] holds the names already met. *)
Fixpoint feed_names_from (seen : list text) (posts : list feed_post)
  : list text :=
  match posts with
  | [] => []
  | p :: posts' =>
      if is_seen seen (fp_feed_name p) then feed_names_from seen posts'
      else fp_feed_name p
           :: feed_names_from (fp_feed_name p :: seen) posts'
  end.

Definition feed_names (posts : list feed_post) : list text :=
  feed_names_from [] posts.

(** The posts that the message shows, feed by feed, when [total_shown]
    posts are shown already: of each feed its first two posts, as far as
    eight are not reached; no feed is begun once eight posts are
    shown. *)
Fixpoint shown_groups (total_shown : nat) (d : list (text * list feed_post))
  : list (text * list feed_post) :=
  match d with
  | [] => []
  | (name, posts) :: d' =>
      if (8 <=? total_shown)%nat then []
      else
        let shown := firstn (8 - total_shown) (firstn 2 posts) in
        (name, shown) :: shown_groups (total_shown + length shown) d'
  end.

(** The part of the message for a feed: its name, a line for each post
    shown, an empty line. *)
Definition feed_block (g : text * list feed_post) : text :=
  u8"📰 *" ++ fst g ++ u8"*" ++ [newline]
  ++ flat_map post_line (snd g) ++ [newline].

(** The number of posts that the message shows for the feeds of [d]:
    two for each feed at most, eight in all. *)
Definition shown_count (d : list (text * list feed_post)) : nat :=
  Nat.min 8 (list_sum (map (fun g => Nat.min 2 (length (snd g))) d)).

(** ** The text of [create_github_output] *)






(** ** The default departure date of [get_sp_recife_prices] *)

(** [date.weekday()] of the day with proleptic Gregorian ordinal [day]:
    Monday is 0. *)
Definition weekday (day : Z) : Z := ((day + 6) mod 7)%Z.

Definition days_ahead (today : Z) : Z :=
  let days := (7 - weekday today)%Z in
  if (days <=? 0)%Z then (days + 7)%Z else days.

(** The ordinal of [today + timedelta(days=days_ahead)]. *)
Definition default_departure (today : Z) : Z := (today + days_ahead today)%Z.

(** ** Floats above zero *)

Definition above_zero (x : spec_float) : bool :=
  match x with
  | S754_infinity false | S754_finite false _ _ => true
  | _ => false
  end.

(** * Properties *)

(** ** The keyword predicate *)






(** ** The relevance filter *)

(** C2. The admit decision of [apply_filters] is [true] when filtering is
    globally disabled and otherwise the value of the keyword predicate on
    the title and summary of the post.  It does not depend on the route,
    price and airline sections of the configuration: a post that the three
    other predicates reject is admitted when the keyword predicate admits
    it. *)
Theorem apply_filters_is_keyword_filter :
  (forall U config m p,
      fst (apply_filters U config m p) =
      if get (enabled config) false
      then check_keyword_filter U config (get (title p) []) (get (summary p) [])
      else true)
  /\ (forall U config r pr a m p,
        fst (apply_filters U (with_sections config r pr a) m p) =
        fst (apply_filters U config m p))
  /\ (check_route_filter latin strict_sections
        (get (title azul_post) []) (get (summary azul_post) []) = Ok false
      /\ check_price_filter latin strict_sections
           (get (title azul_post) []) (get (summary azul_post) []) = Ok false
      /\ check_airline_filter latin strict_sections
           (get (title azul_post) []) (get (summary azul_post) []) = false
      /\ fst (apply_filters latin strict_sections fresh_monitor azul_post)
         = true).
Proof.
  assert (Hdec : forall U config m p,
             fst (apply_filters U config m p) =
             if get (enabled config) false
             then check_keyword_filter U config
                    (get (title p) []) (get (summary p) [])
             else true).
  { intros U config m p. unfold apply_filters.
    destruct (get (enabled config) false); simpl; [| reflexivity].
    destruct (negb _ && _); reflexivity. }
  split; [exact Hdec | split].
  - intros U config r pr a m p. rewrite !Hdec. reflexivity.
  - repeat split; vm_compute; reflexivity.
Qed.

(** ** The matcher and the language of a pattern *)

Lemma or_else_some {A} (a b : option A) x :
  or_else a b = Some x -> a = Some x \/ (a = None /\ b = Some x).
Proof. destruct a; simpl; intros H; [left | right]; auto. Qed.

Section MatcherFacts.
Variable A : Type.

Lemma star_run r (m : matcher A) :
  run_of r m -> forall n, run_of (Star r) (star m n).
Proof.
  intros Hm n. induction n as [| n IH]; intros s g k x H; simpl in H.
  - exists [], s, g. repeat split; auto. constructor.
  - apply or_else_some in H. destruct H as [H | [_ H]].
    + apply Hm in H. destruct H as (w1 & s1 & g1 & -> & Hw1 & Hk & Hg1).
      destruct (length s1 <? length (w1 ++ s1))%nat; [| discriminate].
      apply IH in Hk. destruct Hk as (w2 & s2 & g2 & -> & Hw2 & Hk & Hg2).
      exists (w1 ++ w2), s2, g2. repeat split; auto.
      * now rewrite app_assoc.
      * now constructor.
      * simpl in *. intros Hn. rewrite (Hg2 Hn). auto.
    + exists [], s, g. repeat split; auto. constructor.
Qed.

Lemma rep_run r (m : matcher A) :
  run_of r m -> forall hi lo, run_of (Rep lo hi r) (rep m hi lo).
Proof.
  intros Hm hi. induction hi as [| hi IH]; intros lo s g k x H; simpl in H.
  - destruct lo; simpl in H; [| discriminate].
    exists [], s, g. repeat split; auto. constructor.
  - apply or_else_some in H. destruct H as [H | [_ H]].
    + apply Hm in H. destruct H as (w1 & s1 & g1 & -> & Hw1 & Hk & Hg1).
      apply IH in Hk. destruct Hk as (w2 & s2 & g2 & -> & Hw2 & Hk & Hg2).
      exists (w1 ++ w2), s2, g2. repeat split; auto.
      * now rewrite app_assoc.
      * now constructor.
      * simpl in *. intros Hn. rewrite (Hg2 Hn). auto.
    + destruct lo; simpl in H; [| discriminate].
      exists [], s, g. repeat split; auto. constructor.
Qed.

Lemma firstn_consumed (w s1 : text) :
  firstn (length (w ++ s1) - length s1) (w ++ s1) = w.
Proof.
  rewrite length_app, Nat.add_sub.
  rewrite firstn_app, Nat.sub_diag, firstn_all, firstn_O.
  apply app_nil_r.
Qed.

Lemma rmatch_run r : run_of r (rmatch (A := A) r).
Proof.
  induction r as [| p | r1 IH1 r2 IH2 | r0 IH | lo hi r0 IH | r0 IH];
    intros s g k x H; simpl in H.
  - exists [], s, g. repeat split; auto. constructor.
  - destruct s as [| c s']; [discriminate |].
    destruct (p c) eqn:Hp; [| discriminate].
    exists [c], s', g. repeat split; auto. now constructor.
  - apply IH1 in H. destruct H as (w1 & s1 & g1 & -> & Hw1 & Hk & Hg1).
    apply IH2 in Hk. destruct Hk as (w2 & s2 & g2 & -> & Hw2 & Hk & Hg2).
    exists (w1 ++ w2), s2, g2. repeat split; auto.
    + now rewrite app_assoc.
    + now constructor.
    + simpl. intros Hn. apply andb_true_iff in Hn. destruct Hn as [Ha Hb].
      rewrite (Hg2 Hb). auto.
  - exact (star_run r0 _ IH _ s g k x H).
  - exact (rep_run r0 _ IH hi lo s g k x H).
  - apply IH in H. destruct H as (w & s1 & g1 & -> & Hw & Hk & _).
    rewrite firstn_consumed in Hk.
    exists w, s1, (Some w). repeat split; auto.
    + now constructor.
    + simpl. discriminate.
Qed.

(** A group hands the string it matched to the continuation. *)
Lemma rmatch_group r s g (k : cont A) x :
  rmatch (Group r) s g k = Some x ->
  exists w s1, s = w ++ s1 /\ lang r w /\ k s1 (Some w) = Some x.
Proof.
  simpl. intros H. apply rmatch_run in H.
  destruct H as (w & s1 & g1 & -> & Hw & Hk & _).
  rewrite firstn_consumed in Hk. exists w, s1. auto.
Qed.

(** After a part without group the rest of the pattern matched further
    on, with the same capture. *)
Lemma rmatch_after pre r s g (k : cont A) x :
  no_group pre = true ->
  rmatch (Seq pre r) s g k = Some x ->
  exists w s1, s = w ++ s1 /\ rmatch r s1 g k = Some x.
Proof.
  simpl. intros Hn H. apply rmatch_run in H.
  destruct H as (w & s1 & g1 & -> & _ & Hk & Hg).
  rewrite (Hg Hn) in Hk. exists w, s1. auto.
Qed.
End MatcherFacts.

(** ** [findall] *)

Lemma findall_go_nil r n : forall s,
  (length s < n)%nat ->
  findall_go n r s = [] ->
  forall pre s1, s = pre ++ s1 -> match_here r s1 = None.
Proof.
  induction n as [| n IH]; intros s Hlen H pre s1 Hs; [lia |].
  simpl in H. destruct (match_here r s) as [[g rest] |] eqn:Hm;
    [discriminate |].
  destruct pre as [| c pre]; simpl in Hs; subst s; [exact Hm |].
  simpl in Hlen. apply (IH (pre ++ s1)) with (pre := pre); auto. lia.
Qed.

Lemma findall_go_none r n : forall s,
  (forall pre s1, s = pre ++ s1 -> match_here r s1 = None) ->
  findall_go n r s = [].
Proof.
  induction n as [| n IH]; intros s H; [reflexivity |].
  simpl. rewrite (H [] s eq_refl).
  destruct s as [| c s']; [reflexivity |].
  apply IH. intros pre s1 ->. apply (H (c :: pre)). reflexivity.
Qed.

Lemma findall_go_head r n : forall s g l,
  findall_go n r s = g :: l ->
  exists pre s1 cap rest,
    s = pre ++ s1 /\ match_here r s1 = Some (cap, rest) /\
    g = match cap with Some w => w | None => [] end.
Proof.
  induction n as [| n IH]; intros s g l H; [discriminate |].
  simpl in H. destruct (match_here r s) as [[cap rest] |] eqn:Hm.
  - injection H as Hg _. exists [], s, cap, rest. auto.
  - destruct s as [| c s']; [discriminate |].
    apply IH in H. destruct H as (pre & s1 & cap & rest & -> & Hm' & Hg).
    exists (c :: pre), s1, cap, rest. auto.
Qed.

Lemma findall_nil r s :
  findall r s = [] <->
  (forall pre s1, s = pre ++ s1 -> match_here r s1 = None).
Proof.
  unfold findall. split.
  - apply findall_go_nil. lia.
  - apply findall_go_none.
Qed.

(** A pattern that begins with a part without group and goes on with [r]
    matches only where [r] matches further on: when [r] is found nowhere,
    neither is the longer pattern. *)
Lemma findall_after pre r s :
  no_group pre = true ->
  findall r s = [] -> findall (Seq pre r) s = [].
Proof.
  intros Hn H. rewrite findall_nil in *. intros p s1 Hs.
  destruct (match_here (Seq pre r) s1) as [x |] eqn:Hm; [| reflexivity].
  unfold match_here in Hm. apply rmatch_after in Hm; [| exact Hn].
  destruct Hm as (w & s2 & -> & Hm).
  specialize (H (p ++ w) s2). rewrite <- app_assoc in H.
  specialize (H Hs). unfold match_here in H. congruence.
Qed.

(** ** The number group of a price pattern always parses *)

Section NumberGroup.
Variable U : UCD.

Lemma digit_not_point c : is_digit U c = true -> (point =? c)%N = false.
Proof.
  intros H. destruct (N.eqb_spec point c) as [<- |]; [| reflexivity].
  discriminate H.
Qed.

Lemma digit_not_comma c : is_digit U c = true -> (comma =? c)%N = false.
Proof.
  intros H. destruct (N.eqb_spec comma c) as [<- |]; [| reflexivity].
  discriminate H.
Qed.

Lemma drop_points_app x y :
  drop_points (x ++ y) = drop_points x ++ drop_points y.
Proof. apply flat_map_app. Qed.

Lemma commas_to_points_app x y :
  commas_to_points (x ++ y) = commas_to_points x ++ commas_to_points y.
Proof. apply flat_map_app. Qed.

Lemma drop_points_comma d : drop_points (comma :: d) = comma :: drop_points d.
Proof. reflexivity. Qed.

Lemma commas_to_points_comma d :
  commas_to_points (comma :: d) = point :: commas_to_points d.
Proof. reflexivity. Qed.

#[local] Opaque N.eqb.

(** Replacing a one-character string works character by character. *)
Lemma replace_char x new s :
  replace [x] new s =
  flat_map (fun c => if (x =? c)%N then new else [c]) s.
Proof.
  unfold replace. induction s as [| c s IH]; [reflexivity |].
  simpl. rewrite andb_true_r.
  destruct (x =? c)%N; simpl; rewrite IH; reflexivity.
Qed.

Lemma price_str_chars g : price_str g = commas_to_points (drop_points g).
Proof. unfold price_str. now rewrite !replace_char. Qed.

Lemma drop_points_digits x :
  forallb (is_digit U) x = true -> drop_points x = x.
Proof.
  induction x as [| c x IH]; [reflexivity |]. simpl.
  intros H. apply andb_true_iff in H. destruct H as [Hc Hx].
  rewrite (digit_not_point c Hc). simpl. now rewrite (IH Hx).
Qed.

Lemma commas_to_points_digits x :
  forallb (is_digit U) x = true -> commas_to_points x = x.
Proof.
  induction x as [| c x IH]; [reflexivity |]. simpl.
  intros H. apply andb_true_iff in H. destruct H as [Hc Hx].
  rewrite (digit_not_comma c Hc). simpl. now rewrite (IH Hx).
Qed.

Lemma drop_points_groups b :
  forallb (fun c => is_digit U c || (point =? c)%N) b = true ->
  forallb (is_digit U) (drop_points b) = true.
Proof.
  induction b as [| c b IH]; [reflexivity |]. simpl.
  intros H. apply andb_true_iff in H. destruct H as [Hc Hb].
  destruct (point =? c)%N eqn:Hp; simpl; [now apply IH |].
  rewrite orb_false_r in Hc. rewrite Hc. now apply IH.
Qed.

(** The strings of [p{lo,hi}] for a character class [p]. *)
Lemma lang_rep_chr p lo hi w :
  lang (Rep lo hi (Chr p)) w ->
  forallb p w = true /\ (lo <= length w)%nat.
Proof.
  intros H. remember (Rep lo hi (Chr p)) as r eqn:Hr.
  revert lo hi Hr.
  induction H as [| | | | | hi' r' | lo' hi' r' w1 w2 H1 _ H2 IH2 |];
    intros lo hi Hr; try discriminate.
  - injection Hr as <- _ _. simpl. split; [reflexivity | lia].
  - injection Hr as <- <- ->.
    inversion H1; subst.
    destruct (IH2 (pred lo') hi' eq_refl) as [Hall Hlen].
    simpl. rewrite H0, Hall. split; [reflexivity | lia].
Qed.

(** The strings of [(?:\.\d{3})*]: digits and points. *)
Lemma lang_thousands w :
  lang (Star (Seq (exact point) (Rep 3 3 (digit U)))) w ->
  forallb (fun c => is_digit U c || (point =? c)%N) w = true.
Proof.
  intros H.
  remember (Star (Seq (exact point) (Rep 3 3 (digit U)))) as r eqn:Hr.
  induction H as [| | | | r' w1 w2 H1 _ H2 IH2 | | |]; try discriminate.
  - reflexivity.
  - injection Hr as ->. specialize (IH2 eq_refl).
    inversion H1 as [| | r1 r2 v1 v2 Hv1 Hv2 | | | | |]; subst.
    inversion Hv1; subst.
    apply lang_rep_chr in Hv2. destruct Hv2 as [Hd _].
    rewrite forallb_app. simpl. rewrite H0, orb_true_r. simpl.
    rewrite IH2, andb_true_r.
    rewrite forallb_forall in *. intros ch Hch.
    now rewrite (Hd ch Hch).
Qed.

(** The strings of [(?:,\d{2})?]: nothing, or a comma and digits. *)
Lemma lang_cents w :
  lang (Rep 0 1 (Seq (exact comma) (Rep 2 2 (digit U)))) w ->
  w = [] \/ exists d, w = comma :: d /\ forallb (is_digit U) d = true.
Proof.
  intros H. inversion H as [| | | | | | lo hi r w1 w2 H1 H2 |]; subst;
    [now left | right].
  inversion H2; subst.
  inversion H1 as [| | r1 r2 v1 v2 Hv1 Hv2 | | | | |]; subst.
  inversion Hv1 as [| p c Hc | | | | | |]; subst.
  apply N.eqb_eq in Hc. subst c.
  apply lang_rep_chr in Hv2. destruct Hv2 as [Hd _].
  exists v2. rewrite app_nil_r. split; [reflexivity | exact Hd].
Qed.

Lemma digits_value_some x : forall acc,
  forallb (is_digit U) x = true -> exists v, digits_value U x acc = Some v.
Proof.
  induction x as [| c x IH]; intros acc H; simpl; [eauto |].
  simpl in H. apply andb_true_iff in H. destruct H as [Hc Hx].
  unfold is_digit in Hc. destruct (decimal_digit U c); [| discriminate].
  now apply IH.
Qed.

Lemma break_at_point_digits x tail :
  forallb (is_digit U) x = true ->
  break_at_point (x ++ tail) =
  (x ++ fst (break_at_point tail), snd (break_at_point tail)).
Proof.
  induction x as [| c x IH]; simpl; intros H.
  - now destruct (break_at_point tail).
  - apply andb_true_iff in H. destruct H as [Hc Hx].
    pose proof (digit_not_point c Hc) as Hp. rewrite N.eqb_sym in Hp.
    rewrite Hp, (IH Hx). reflexivity.
Qed.

Lemma py_float_digits x d tail :
  x <> [] ->
  forallb (is_digit U) x = true ->
  forallb (is_digit U) d = true ->
  tail = [] \/ tail = point :: d ->
  exists f, py_float U (x ++ tail) = Ok f.
Proof.
  intros Hne Hx Hd Htail. unfold py_float.
  rewrite (break_at_point_digits x tail Hx).
  destruct (digits_value_some x 0%Z Hx) as [a Ha].
  destruct Htail as [-> | ->]; simpl.
  - rewrite !app_nil_r, Ha. destruct x; [contradiction |]. simpl. eauto.
  - rewrite N.eqb_refl. simpl. rewrite !app_nil_r, Ha.
    destruct (digits_value_some d 0%Z Hd) as [b Hb]. rewrite Hb.
    destruct x; [contradiction |]. simpl. eauto.
Qed.

(** A string matched by the number group, once rewritten by
    [price_str], is read by [float] without error. *)
Lemma number_group_parses w :
  lang (number U) w -> exists f, py_float U (price_str w) = Ok f.
Proof.
  intros H. unfold number in H.
  inversion H as [| | r1 r2 a w' Ha Hw' | | | | |]; subst.
  inversion Hw' as [| | r1 r2 b c Hb Hc | | | | |]; subst.
  apply lang_rep_chr in Ha. destruct Ha as [Ha Hlen].
  apply lang_thousands in Hb. apply lang_cents in Hc.
  rewrite price_str_chars.
  rewrite !drop_points_app, !commas_to_points_app.
  rewrite (drop_points_digits a Ha), (commas_to_points_digits a Ha).
  pose proof (drop_points_groups b Hb) as Hb'.
  rewrite (commas_to_points_digits _ Hb').
  rewrite app_assoc.
  assert (Hne : a ++ drop_points b <> []).
  { destruct a; simpl in *; [lia | discriminate]. }
  assert (Hall : forallb (is_digit U) (a ++ drop_points b) = true).
  { rewrite forallb_app, Ha, Hb'. reflexivity. }
  destruct Hc as [-> | (d & -> & Hd)].
  - apply (py_float_digits _ [] []); auto.
  - rewrite drop_points_comma, commas_to_points_comma.
    rewrite (drop_points_digits d Hd), (commas_to_points_digits d Hd).
    apply (py_float_digits _ d); auto.
Qed.

#[local] Transparent N.eqb.
End NumberGroup.

(** ** The price extractor *)

Section ExtractPrice.
Variable U : UCD.

Lemma py_float_error s e : py_float U s = Raise e -> e = ValueError.
Proof.
  unfold py_float. destruct (break_at_point s) as [ip fp].
  destruct (ip ++ _); [congruence |].
  destruct (digits_value U ip 0); [| congruence].
  destruct (digits_value U _ 0); congruence.
Qed.

(** No exception escapes the loop over the patterns. *)
Lemma try_patterns_total ps t : exists r, try_patterns U ps t = Ok r.
Proof.
  induction ps as [| p ps IH]; simpl; [eauto |].
  destruct (findall p t) as [| g l]; [exact IH |].
  destruct (py_float U (price_str g)) as [f | e] eqn:Hf; [eauto |].
  apply py_float_error in Hf. subst e. exact IH.
Qed.

Lemma extract_price_total t : exists r, extract_price U t = Ok r.
Proof.
  destruct t; unfold extract_price; [eauto | apply try_patterns_total].
Qed.

Lemma pattern_currency_eq :
  pattern_currency U =
  Seq (Chr (letter U 0x52%N))
    (Seq (exact 0x24%N) (Seq (Star (blank U)) (Group (number U)))).
Proof. reflexivity. Qed.

(** The group of a match of the currency pattern is a number. *)
Lemma currency_group_parses t g l :
  findall (pattern_currency U) t = g :: l ->
  exists f, py_float U (price_str g) = Ok f.
Proof.
  intros H. apply findall_go_head in H.
  destruct H as (pre & s1 & cap & rest & _ & Hm & ->).
  unfold match_here in Hm. rewrite pattern_currency_eq in Hm.
  apply rmatch_after in Hm; [| reflexivity].
  destruct Hm as (w1 & s2 & _ & Hm).
  apply rmatch_after in Hm; [| reflexivity].
  destruct Hm as (w2 & s3 & _ & Hm).
  apply rmatch_after in Hm; [| reflexivity].
  destruct Hm as (w3 & s4 & _ & Hm).
  apply rmatch_group in Hm. destruct Hm as (w & s5 & _ & Hw & Hk).
  injection Hk as <- _. now apply number_group_parses.
Qed.

Lemma word_after w r s :
  findall r s = [] -> findall (word U w r) s = [].
Proof.
  intros H. induction w as [| a w IH]; simpl; [exact H |].
  now apply findall_after.
Qed.

(** Where the currency pattern is found nowhere, neither are the "por"
    and the "partir de" patterns, which end with it. *)
Lemma pattern_por_needs_currency t :
  findall (pattern_currency U) t = [] -> findall (pattern_por U) t = [].
Proof.
  intros H. unfold pattern_por. apply word_after.
  now apply findall_after.
Qed.

Lemma pattern_partir_needs_currency t :
  findall (pattern_currency U) t = [] -> findall (pattern_partir U) t = [].
Proof.
  intros H. unfold pattern_partir. apply word_after.
  apply findall_after; [reflexivity |].
  apply findall_after; [reflexivity |].
  apply word_after. now apply findall_after.
Qed.
End ExtractPrice.

(** C10. The "por R$" and "partir de R$" patterns never decide: on every
    text [extract_price] returns what the variant that tries only the
    bare "R$" pattern and the "reais" pattern returns. *)
Theorem extract_price_two_patterns_suffice :
  forall U t, extract_price U t = extract_price_two U t.
Proof.
  intros U t. destruct t as [| c t]; [reflexivity |].
  unfold extract_price, extract_price_two, price_patterns.
  set (s := c :: t). simpl try_patterns.
  destruct (findall (pattern_currency U) s) as [| g l] eqn:Hc.
  - rewrite (pattern_por_needs_currency U s Hc).
    rewrite (pattern_partir_needs_currency U s Hc).
    reflexivity.
  - destruct (currency_group_parses U s g l Hc) as [f Hf].
    rewrite Hf. reflexivity.
Qed.

(** C5. [extract_price] reads 1234.56 in "R$ 1.234,56" and 234.56 in
    "a partir de R$ 234,56", finds nothing in "no price here", never
    raises, and returns none whenever each pattern either matches nowhere
    or has a first match that [float] refuses. *)
Theorem extract_price_examples_and_totality :
  extract_price latin (u8"R$ 1.234,56") = Ok (Some 1234.56%float)
  /\ extract_price latin (u8"a partir de R$ 234,56") = Ok (Some 234.56%float)
  /\ extract_price latin (u8"no price here") = Ok None
  /\ (forall U t, exists r, extract_price U t = Ok r)
  /\ (forall U t,
        Forall (fun p => yields_no_price U p t) (price_patterns U) ->
        extract_price U t = Ok None).
Proof.
  repeat split; try (vm_compute; reflexivity).
  - intros U t. apply extract_price_total.
  - intros U t H. destruct t as [| c t]; [reflexivity |].
    unfold extract_price. set (s := c :: t) in *. clearbody s.
    induction H as [| p ps Hp _ IH]; [reflexivity |].
    simpl. unfold yields_no_price in Hp.
    destruct (findall p s) as [| g l]; [exact IH |].
    rewrite Hp. exact IH.
Qed.

Lemma extract_price_examples_and_totality_witness :
  extract_price latin (u8"no price here") = Ok None.
Proof.
  apply (proj2 (proj2 (proj2 (proj2 extract_price_examples_and_totality)))
           latin (u8"no price here")).
  repeat constructor.
Defined.

(** ** The price predicate *)

(** C7. With the price section enabled, the price predicate passes a post
    in which no price is found; otherwise it passes exactly when the
    extracted price is at most the international threshold, if the
    lowercased text holds one of the international keywords, and at most
    the domestic threshold if not.  With a domestic threshold of 800 and
    no international keyword a price of 799 passes and a price of 801
    fails; with the keyword "Paris" in the title a price of 1.000 is held
    against the international threshold: it passes under 2500 and fails
    under 900, whatever the domestic threshold. *)
Theorem price_filter_threshold :
  (forall U config title summary,
      get_in (price config) price_enabled false = true ->
      exists p,
        extract_price U (full_text title summary) = Ok p /\
        match p with
        | None => check_price_filter U config title summary = Ok true
        | Some x =>
            check_price_filter U config title summary =
            Ok (float_le_num x
                  (if existsb
                        (fun w =>
                           contains w (lower U (full_text title summary)))
                        foreign_keywords
                   then get_in (price config) international_max (Int 2500)
                   else get_in (price config) domestic_max (Int 800)))
        end)
  /\ (forall intl,
        check_price_filter latin (price_on (Some (Int 800)) intl)
          (u8"Passagem para Recife por R$ 799") [] = Ok true
        /\ check_price_filter latin (price_on (Some (Int 800)) intl)
             (u8"Passagem para Recife por R$ 801") [] = Ok false
        /\ check_price_filter latin (price_on (Some (Int 800)) intl)
             (u8"Passagem para Recife") [] = Ok true)
  /\ (forall dom,
        check_price_filter latin (price_on dom (Some (Int 2500)))
          (u8"Passagem para Paris por R$ 1.000") [] = Ok true
        /\ check_price_filter latin (price_on dom None)
             (u8"Passagem para Paris por R$ 1.000") [] = Ok true
        /\ check_price_filter latin (price_on dom (Some (Int 900)))
             (u8"Passagem para Paris por R$ 1.000") [] = Ok false)
  /\ check_price_filter latin (price_on (Some (Int 800)) (Some (Int 2500)))
       (u8"Passagem para Recife por R$ 1.000") [] = Ok false.
Proof.
  split; [| split; [| split]].
  - intros U config title summary Hon.
    destruct (extract_price_total U (full_text title summary)) as [p Hp].
    exists p. split; [exact Hp |].
    unfold check_price_filter, max_price, is_international.
    rewrite Hon, Hp. simpl.
    destruct p; reflexivity.
  - intros intl. repeat split; vm_compute; reflexivity.
  - intros dom. repeat split; vm_compute; reflexivity.
  - vm_compute. reflexivity.
Qed.

Lemma price_filter_threshold_witness :
  exists p,
    extract_price latin
      (full_text (u8"Passagem para Paris por R$ 1.000") []) = Ok p /\
    match p with
    | None =>
        check_price_filter latin (price_on (Some (Int 800)) None)
          (u8"Passagem para Paris por R$ 1.000") [] = Ok true
    | Some x =>
        check_price_filter latin (price_on (Some (Int 800)) None)
          (u8"Passagem para Paris por R$ 1.000") [] =
        Ok (float_le_num x
              (if existsb
                    (fun w =>
                       contains w
                         (lower latin
                            (full_text
                               (u8"Passagem para Paris por R$ 1.000") [])))
                    foreign_keywords
               then get_in (price (price_on (Some (Int 800)) None))
                      international_max (Int 2500)
               else get_in (price (price_on (Some (Int 800)) None))
                      domestic_max (Int 800)))
    end.
Proof.
  apply (proj1 price_filter_threshold latin (price_on (Some (Int 800)) None)
           (u8"Passagem para Paris por R$ 1.000") []).
  reflexivity.
Defined.

(** ** The route predicate *)

Lemma route_mentioned_ok U nt r :
  entry_ok r = true -> route_mentioned U nt r = Ok (entry_matches U nt r).
Proof.
  unfold entry_ok, route_mentioned, entry_matches.
  destruct (contains arrow r); simpl; [| reflexivity].
  intros H. apply Nat.eqb_eq in H.
  destruct (split arrow r) as [| o [| d [| x l]]]; simpl in H;
    try discriminate; reflexivity.
Qed.

Lemma any_route_ok U nt rs :
  forallb entry_ok rs = true ->
  any_route U nt rs = Ok (existsb (entry_matches U nt) rs).
Proof.
  induction rs as [| r rs IH]; simpl; [reflexivity |].
  intros H. apply andb_true_iff in H. destruct H as [Hr Hrs].
  rewrite (route_mentioned_ok U nt r Hr). simpl.
  destruct (entry_matches U nt r); [reflexivity | now apply IH].
Qed.

(** C6. With the route section enabled and a non-empty include list
    whose entries have one of the two forms of a route, a bare location
    or an origin and a destination around one separator, the route
    predicate returns true exactly when the post matches one of the
    include entries.  With a non-empty include list the exclude list has
    no effect on the outcome at all.  With include = ["São Paulo ->
    Recife"] a post that mentions Recife and not São Paulo is rejected
    whatever the exclude list holds. *)
Theorem route_include_is_whitelist :
  (forall U config title summary,
      get_in (routes config) routes_enabled false = true ->
      get_in (routes config) routes_include [] <> [] ->
      forallb entry_ok (get_in (routes config) routes_include []) = true ->
      check_route_filter U config title summary =
      Ok (existsb (entry_matches U (post_text U title summary))
            (get_in (routes config) routes_include [])))
  /\ (forall U config exclude title summary,
        get_in (routes config) routes_include [] <> [] ->
        check_route_filter U (with_route_exclude config exclude) title summary
        = check_route_filter U config title summary)
  /\ (forall exclude,
        contains (u8"recife")
          (post_text latin (u8"Promoção de passagem para Recife") []) = true
        /\ contains (normalize_text latin (u8"São Paulo"))
             (post_text latin (u8"Promoção de passagem para Recife") [])
           = false
        /\ check_route_filter latin
             (routes_on [u8"São Paulo -> Recife"] exclude)
             (u8"Promoção de passagem para Recife") [] = Ok false).
Proof.
  split; [| split].
  - intros U config title summary Hon Hne Hok.
    unfold check_route_filter. rewrite Hon. simpl negb. cbv iota.
    destruct (get_in (routes config) routes_include []) as [| r rs] eqn:Hi;
      [contradiction |].
    exact (any_route_ok U _ (r :: rs) Hok).
  - intros U config exclude title summary Hne.
    unfold check_route_filter, with_route_exclude.
    destruct (routes config) as [r |]; simpl in *; [| reflexivity].
    destruct (get (routes_enabled r) false); simpl; [| reflexivity].
    destruct (get (routes_include r) []); [contradiction | reflexivity].
  - intros exclude. repeat split; vm_compute; reflexivity.
Qed.

Lemma route_include_is_whitelist_witness :
  check_route_filter latin (routes_on [u8"São Paulo -> Recife"; u8"Natal"] [])
    (u8"Voo de São Paulo para Recife") [] = Ok true.
Proof.
  rewrite (proj1 route_include_is_whitelist latin
             (routes_on [u8"São Paulo -> Recife"; u8"Natal"] [])
             (u8"Voo de São Paulo para Recife") []
             eq_refl ltac:(discriminate) eq_refl).
  vm_compute. reflexivity.
Defined.

(** An entry with two separators has neither of the two forms: with
    include = ["Recife -> São Paulo -> Recife"; "Recife"] a post about
    Recife matches the second entry, and unpacking the first one
    raises. *)
Lemma route_entry_with_two_separators :
  entry_matches latin
    (post_text latin (u8"Promoção de passagem para Recife") [])
    (u8"Recife") = true
  /\ check_route_filter latin
       (routes_on [u8"Recife -> São Paulo -> Recife"; u8"Recife"] [])
       (u8"Promoção de passagem para Recife") [] = Raise ValueError.
Proof. split; vm_compute; reflexivity. Qed.

(** ** The deal scorer *)

Lemma positive_not_zero (m : float) :
  (0 <? m)%float = true -> (m =? 0)%float = false.
Proof.
  rewrite ltb_spec, eqb_spec. change (Prim2SF 0) with (S754_zero false).
  destruct (Prim2SF m) as [s | s | | s mm e]; try destruct s;
    unfold SFltb, SFeqb, SFcompare; intros H;
    try reflexivity; discriminate H.
Qed.

Lemma above_positive_not_zero (p m : float) :
  (0 <? p)%float = true -> (m <=? p)%float = false ->
  (m =? 0)%float = false.
Proof.
  rewrite ltb_spec, leb_spec, eqb_spec.
  change (Prim2SF 0) with (S754_zero false).
  destruct (Prim2SF p) as [s | s | | s pm pe]; try destruct s;
    destruct (Prim2SF m) as [t | t | | t mm me]; try destruct t;
    unfold SFltb, SFleb, SFeqb, SFcompare; intros H1 H2;
    try reflexivity; try discriminate H1; discriminate H2.
Qed.

Lemma rate_deal_quality_ok (promo market : float) :
  (0 <? promo)%float = true ->
  _rate_deal_quality promo market = Ok (quality_of_savings promo market).
Proof.
  intros Hp. unfold _rate_deal_quality, quality_of_savings.
  destruct (market <=? promo)%float eqn:Hle; [reflexivity |].
  unfold py_div. rewrite (above_positive_not_zero promo market Hp Hle).
  reflexivity.
Qed.

(** For every promotion price above zero and every market price the
    scoring block returns: savings = market - promo; the discount
    percentage round(savings / market * 100, 1) when the market price is
    above zero and 0 otherwise; a good deal exactly when savings > 50 and
    promo < 500; and the grade RUIM when promo >= market, else EXCELENTE,
    MUITO_BOA, BOA or REGULAR for a savings percentage of at least 30, at
    least 15, at least 5, or less.  Savings of 50 at a promotion price of
    499 are not a good deal, savings of 51 are. *)
Lemma deal_scorer_formulas :
  (forall promo market,
      (0 <? promo)%float = true ->
      score_deal (Some promo) market = Ok (Some (deal_of_prices promo market)))
  /\ (option_map is_good_deal
        match score_deal (Some 499%float) 549%float with
        | Ok d => d | Raise _ => None end = Some false
      /\ option_map is_good_deal
           match score_deal (Some 499%float) 550%float with
           | Ok d => d | Raise _ => None end = Some true)
  /\ (_rate_deal_quality 600 600 = Ok RUIM
      /\ _rate_deal_quality 420 600 = Ok EXCELENTE
      /\ _rate_deal_quality 510 600 = Ok MUITO_BOA
      /\ _rate_deal_quality 570 600 = Ok BOA
      /\ _rate_deal_quality 595 600 = Ok REGULAR).
Proof.
  split; [| split].
  - intros promo market Hp. unfold score_deal, truthy.
    rewrite (positive_not_zero promo Hp).
    rewrite (rate_deal_quality_ok promo market Hp).
    unfold deal_of_prices.
    destruct (0 <? market)%float eqn:Hm; [| reflexivity].
    unfold py_div. rewrite (positive_not_zero market Hm). reflexivity.
  - split; vm_compute; reflexivity.
  - repeat split; vm_compute; reflexivity.
Qed.

(** C3. The code at a promotion price of zero.  The title "Passagem para
    Recife com taxa de R$ 0" carries the price 0.0.  Against a market
    price of 600 the formulas of the scorer give savings of 600, a
    discount of 100.0 and a good deal graded EXCELENTE.  The code records
    that the post has a promotion price ([promo_price is not None]) and
    then scores nothing, because its next test, [if promo_price:], takes
    0.0 for an absent price: no savings, discount, good-deal flag or
    grade is produced. *)
Theorem deal_scorer_skips_price_zero :
  extract_price latin
    (full_text (get (title free_post) []) (get (summary free_post) []))
  = Ok (Some 0%float)
  /\ deal_of_prices 0 600
     = {| promotion_price_brl := 0;
          savings_vs_market := 600;
          discount_percentage := Float 100;
          is_good_deal := true;
          deal_quality_ := EXCELENTE |}
  /\ score_deal (Some 0%float) 600%float = Ok None
  /\ enhance_post_with_price_analysis latin free_post
       (Some (600%float, u8"REGULAR"))
     = Analysed {| current_market_price_brl := 600;
                   market_price_rating := u8"REGULAR";
                   has_promotion_price := true;
                   deal_ := None;
                   miles_alternative_ := None |}.
Proof. repeat split; vm_compute; reflexivity. Qed.

(** ** The mileage estimator *)

Lemma binary_round_aux_sign sx mx ex lx :
  match binary_round_aux prec emax sx mx ex lx with
  | S754_zero s | S754_finite s _ _ | S754_infinity s => s = sx
  | S754_nan => True
  end.
Proof.
  unfold binary_round_aux.
  destruct (shr_fexp prec emax mx ex lx) as [mrs' e'].
  destruct (shr_fexp prec emax _ e' loc_Exact) as [mrs'' e''].
  destruct (shr_m mrs''); [reflexivity | | exact I].
  destruct (e'' <=? emax - prec)%Z; reflexivity.
Qed.

Lemma SFmul_not_negative x y :
  not_negative x -> x <> S754_zero true ->
  not_negative y -> y <> S754_zero true ->
  not_negative (SF64mul x y) /\ SF64mul x y <> S754_zero true.
Proof.
  intros Hx Hx0 Hy Hy0.
  destruct x as [s | s | | s mx ex_]; destruct y as [t | t | | t my ey];
    simpl in Hx, Hy; subst; try destruct s; try destruct t;
    try contradiction; simpl; try (split; [exact I || reflexivity | discriminate]).
  pose proof (binary_round_aux_sign false (Zpos (mx * my)) (ex_ + ey)%Z
                loc_Exact) as H.
  unfold SF64mul, SFmul. simpl xorb.
  destruct (binary_round_aux prec emax false _ _ loc_Exact); simpl;
    subst; split; auto; discriminate.
Qed.

Lemma positive_not_negative (x : float) :
  (0 <? x)%float = true ->
  not_negative (Prim2SF x) /\ Prim2SF x <> S754_zero true.
Proof.
  rewrite ltb_spec. change (Prim2SF 0) with (S754_zero false).
  destruct (Prim2SF x) as [s | s | | s m e]; try destruct s;
    unfold SFltb, SFcompare; intros H; try discriminate H;
    simpl; split; auto; discriminate.
Qed.

(** On a finite float that is not negative [int] and the floor agree. *)
Lemma py_int_floor (x : float) :
  not_negative (Prim2SF x) -> is_finite x = true ->
  exists n, py_int x = Ok n /\ float_floor x = Some n.
Proof.
  unfold is_finite, py_int, float_floor.
  destruct (Prim2SF x) as [s | s | | s m e]; simpl; intros Hs Hf;
    try discriminate; [eauto |].
  subst s. eauto.
Qed.

Lemma estimate_program_ok cash c :
  (0 <? cash)%float = true ->
  (0 <? rate c)%float = true ->
  points_finite cash c = true ->
  exists points,
    float_floor (cash * rate c * 1000)%float = Some points /\
    estimate_program cash c = Ok (estimate_of cash c points).
Proof.
  intros Hc Hr Hf. unfold points_finite in Hf.
  destruct (positive_not_negative cash Hc) as [Hc1 Hc2].
  destruct (positive_not_negative (rate c) Hr) as [Hr1 Hr2].
  assert (Ht : not_negative (Prim2SF 1000) /\ Prim2SF 1000 <> S754_zero true).
  { apply positive_not_negative. reflexivity. }
  destruct Ht as [Ht1 Ht2].
  destruct (SFmul_not_negative _ _ Hc1 Hc2 Hr1 Hr2) as [Hm1 Hm2].
  rewrite <- mul_spec in Hm1, Hm2.
  destruct (SFmul_not_negative _ _ Hm1 Hm2 Ht1 Ht2) as [Hp _].
  rewrite <- mul_spec in Hp.
  destruct (py_int_floor _ Hp Hf) as (n & Hn & Hfl).
  exists n. split; [exact Hfl |].
  unfold estimate_program. rewrite Hn. reflexivity.
Qed.

Lemma estimate_programs_ok cash ps :
  (0 <? cash)%float = true ->
  Forall (fun pc => (0 <? rate (snd pc))%float = true) ps ->
  Forall (fun pc => points_finite cash (snd pc) = true) ps ->
  exists es,
    estimate_programs cash ps = Ok es /\
    Forall2 (fun pc ne =>
               fst ne = fst pc /\
               exists points,
                 float_floor (cash * rate (snd pc) * 1000)%float = Some points
                 /\ snd ne = estimate_of cash (snd pc) points) ps es.
Proof.
  intros Hc Hr Hf. induction ps as [| [name c] ps IH]; simpl.
  - exists []. split; [reflexivity | constructor].
  - inversion Hr as [| ? ? Hr1 Hr2]; subst.
    inversion Hf as [| ? ? Hf1 Hf2]; subst.
    destruct (estimate_program_ok cash c Hc Hr1 Hf1) as (n & Hfl & He).
    destruct (IH Hr2 Hf2) as (es & Hes & Hall).
    rewrite He, Hes. simpl.
    exists ((name, estimate_of cash c n) :: es). split; [reflexivity |].
    constructor; [| exact Hall]. simpl. eauto.
Qed.

(** [min] keeps the first entry of least value: the entries before the
    chosen one need more miles, those after it need as many or more. *)
Lemma fewer_miles_first es : forall l b,
  (exists pre post,
      l = pre ++ b :: post /\
      (forall x, In x pre ->
         (estimated_miles (snd b) < estimated_miles (snd x))%Z) /\
      (forall x, In x post ->
         (estimated_miles (snd b) <= estimated_miles (snd x))%Z)) ->
  exists pre post,
    l ++ es = pre ++ fold_left fewer_miles es b :: post /\
    (forall x, In x pre ->
       (estimated_miles (snd (fold_left fewer_miles es b))
        < estimated_miles (snd x))%Z) /\
    (forall x, In x post ->
       (estimated_miles (snd (fold_left fewer_miles es b))
        <= estimated_miles (snd x))%Z).
Proof.
  induction es as [| y es IH]; intros l b (pre & post & Hl & Hpre & Hpost).
  - cbn [fold_left]. rewrite app_nil_r. eauto.
  - cbn [fold_left].
    replace (l ++ y :: es) with ((l ++ [y]) ++ es)
      by now rewrite <- app_assoc.
    apply IH. unfold fewer_miles.
    destruct (estimated_miles (snd y) <? estimated_miles (snd b))%Z eqn:E.
    + apply Z.ltb_lt in E. exists l, []. split; [reflexivity | split].
      * intros x Hx. subst l. apply in_app_iff in Hx.
        destruct Hx as [Hx | [<- | Hx]];
          [specialize (Hpre x Hx) | | specialize (Hpost x Hx)]; lia.
      * intros x [].
    + apply Z.ltb_ge in E. exists pre, (post ++ [y]). split; [| split].
      * subst l. now rewrite <- app_assoc.
      * exact Hpre.
      * intros x Hx. apply in_app_iff in Hx.
        destruct Hx as [Hx | [<- | []]]; [now apply Hpost | exact E].
Qed.

(** C9, as the code has it.  For every cash price above zero for which
    the products cashPrice * rate * 1000 of the four programs are finite
    floats, the estimator returns, for each program of the table,
    estimatedPoints = max(floor(cashPrice * rate * 1000), minPoints),
    savingsVsCash = cashPrice - fixedFees and worthUsingPoints true
    exactly when savingsVsCash > 50, and its best program is the first
    one of least estimatedPoints in the order of the table: the programs
    before it need more points, those after it as many or more.  For the
    program of rate 0.025 and minimum 15000 a cash price of 100 gives
    15000 points; at a cash price of 772.75 the second and the third
    program both need 17000 points and the second is the best one. *)
Theorem miles_estimate_formulas :
  (forall cash,
      (0 <? cash)%float = true ->
      Forall (fun pc => points_finite cash (snd pc) = true) miles_programs ->
      exists r,
        estimate_miles_prices cash = Ok r /\
        Forall2 (fun pc ne =>
                   fst ne = fst pc /\
                   exists points,
                     float_floor (cash * rate (snd pc) * 1000)%float
                     = Some points
                     /\ snd ne = estimate_of cash (snd pc) points)
          miles_programs (programs r) /\
        exists before best after,
          programs r = before ++ (best_miles_option r, best) :: after /\
          (forall x, In x before ->
             (estimated_miles best < estimated_miles (snd x))%Z) /\
          (forall x, In x after ->
             (estimated_miles best <= estimated_miles (snd x))%Z))
  /\ (rate {| rate := 0.025; min_miles := 15000; fees := 120 |} = 0.025%float
      /\ option_map estimated_miles
           match estimate_program 100
                   {| rate := 0.025; min_miles := 15000; fees := 120 |} with
           | Ok e => Some e | Raise _ => None end = Some 15000%Z
      /\ match estimate_miles_prices 100 with
         | Ok r => option_map estimated_miles
                     (program_of (programs r) (u8"Smiles (GOL)"))
         | Raise _ => None
         end = Some 15000%Z)
  /\ match estimate_miles_prices 772.75 with
     | Ok r =>
         Some (best_miles_option r,
               map (fun ne => estimated_miles (snd ne)) (programs r))
     | Raise _ => None
     end = Some (u8"TudoAzul (Azul)", [19318; 17000; 17000; 23182]%Z).
Proof.
  split; [| split].
  - intros cash Hc Hf.
    assert (Hr : Forall (fun pc => (0 <? rate (snd pc))%float = true)
                   miles_programs).
    { repeat constructor. }
    destruct (estimate_programs_ok cash miles_programs Hc Hr Hf)
      as (es & Hes & Hall).
    unfold estimate_miles_prices. rewrite Hes. simpl.
    destruct es as [| e es]; [inversion Hall |].
    simpl. eexists. split; [reflexivity |]. simpl.
    split; [exact Hall |].
    destruct (fewer_miles_first es [e] e) as (pre & post & Hl & Hpre & Hpost).
    { exists [], []. split; [reflexivity | split]; intros x []. }
    exists pre, (snd (fold_left fewer_miles es e)), post.
    rewrite <- surjective_pairing. auto.
  - repeat split; vm_compute; reflexivity.
  - vm_compute. reflexivity.
Qed.

Lemma miles_estimate_formulas_witness :
  exists r,
    estimate_miles_prices 772.75 = Ok r /\
    Forall2 (fun pc ne =>
               fst ne = fst pc /\
               exists points,
                 float_floor (772.75 * rate (snd pc) * 1000)%float
                 = Some points
                 /\ snd ne = estimate_of 772.75 (snd pc) points)
      miles_programs (programs r) /\
    exists before best after,
      programs r = before ++ (best_miles_option r, best) :: after /\
      (forall x, In x before ->
         (estimated_miles best < estimated_miles (snd x))%Z) /\
      (forall x, In x after ->
         (estimated_miles best <= estimated_miles (snd x))%Z).
Proof.
  apply (proj1 miles_estimate_formulas 772.75%float).
  - reflexivity.
  - repeat constructor.
Defined.

(** C9 fails as stated for a cash price whose product overflows: at
    1e307, a positive finite float, [int] receives an infinity and
    raises. *)
Lemma miles_estimate_counterexample :
  (0 <? 1e307)%float = true
  /\ is_finite 1e307 = true
  /\ estimate_miles_prices 1e307 = Raise OverflowError.
Proof. repeat split; vm_compute; reflexivity. Qed.

(** ** The Recife indicator *)

Lemma starts_with_token tok c1 x :
  starts_with (tok ++ [c1]) x = true -> is_boundary c1 = true ->
  token_here tok x = true.
Proof.
  unfold token_here. revert x.
  induction tok as [| a tok IH]; intros x H Hb; simpl in *.
  - destruct x as [| c x]; [discriminate |].
    rewrite andb_true_r in H. apply N.eqb_eq in H. now subst c.
  - destruct x as [| c x]; [discriminate |].
    apply andb_true_iff in H. destruct H as [Ha H].
    rewrite Ha. simpl. now apply IH.
Qed.

Lemma contains_token c0 tok c1 x :
  is_boundary c0 = true -> is_boundary c1 = true ->
  contains (c0 :: tok ++ [c1]) x = true -> token_after tok x = true.
Proof.
  intros H0 H1. induction x as [| c x IH]; simpl; [discriminate |].
  intros H. apply orb_true_iff in H. destruct H as [H | H].
  - apply andb_true_iff in H. destruct H as [Hc H].
    apply N.eqb_eq in Hc. subst c. rewrite H0.
    now rewrite (starts_with_token tok c1 x H H1).
  - rewrite (IH H). apply orb_true_r.
Qed.

Lemma token_here_unpad tok n :
  spaceless tok = true ->
  token_here tok (n ++ [32%N]) = true -> token_here tok n = true.
Proof.
  unfold token_here. revert n.
  induction tok as [| a tok IH]; intros n Hs H; simpl in *.
  - destruct n; [reflexivity | exact H].
  - apply andb_true_iff in Hs. destruct Hs as [Ha Hs].
    destruct n as [| c n]; simpl in *.
    + apply andb_true_iff in H. destruct H as [H _].
      apply andb_true_iff in H. destruct H as [H _].
      apply N.eqb_eq in H. subst a. discriminate Ha.
    + apply andb_true_iff in H. destruct H as [H Hr].
      apply andb_true_iff in H. destruct H as [Hc H].
      rewrite Hc. simpl. apply IH; [exact Hs |].
      now rewrite H, Hr.
Qed.

Lemma token_after_unpad tok n :
  spaceless tok = true -> tok <> [] ->
  token_after tok (n ++ [32%N]) = true -> token_after tok n = true.
Proof.
  intros Hs Hne. induction n as [| c n IH]; simpl; intros H.
  - destruct tok; [contradiction | discriminate].
  - apply orb_true_iff in H. destruct H as [H | H].
    + apply andb_true_iff in H. destruct H as [Hc H].
      now rewrite Hc, (token_here_unpad tok n Hs H).
    + rewrite (IH H). apply orb_true_r.
Qed.

(** A token between spaces in the padded text is a bounded token of the
    text. *)
Lemma padded_token tok n :
  spaceless tok = true -> tok <> [] ->
  contains (32%N :: tok ++ [32%N]) (padded n) = true ->
  bounded_token tok n = true.
Proof.
  intros Hs Hne H. apply contains_token in H; try reflexivity.
  unfold padded in H. simpl in H. unfold bounded_token.
  apply orb_true_iff in H. destruct H as [H | H].
  - now rewrite (token_here_unpad tok n Hs H).
  - rewrite (token_after_unpad tok n Hs Hne H). apply orb_true_r.
Qed.

Lemma starts_with_contains_tail a b x :
  starts_with (a ++ b) x = true -> contains b x = true.
Proof.
  revert x. induction a as [| c a IH]; intros x H; simpl in H.
  - destruct x; simpl; now rewrite H.
  - destruct x as [| d x]; [discriminate |].
    apply andb_true_iff in H. destruct H as [_ H].
    simpl. rewrite (IH x H). apply orb_true_r.
Qed.

(** A text that contains a string contains its endings. *)
Lemma contains_tail a b x :
  contains (a ++ b) x = true -> contains b x = true.
Proof.
  induction x as [| d x IH]; intros H.
  - simpl in H. rewrite orb_false_r in H.
    now apply starts_with_contains_tail in H.
  - simpl in H. apply orb_true_iff in H. destruct H as [H | H].
    + now apply starts_with_contains_tail in H.
    + simpl. rewrite (IH H). apply orb_true_r.
Qed.

Lemma has_recife_without_tokens U n :
  contains (normalize_text U (u8"recife")) n = false ->
  contains (normalize_text U (u8"pernambuco")) n = false ->
  bounded_token (u8"rec") n = false ->
  bounded_token (u8"pe") n = false ->
  contains (u8"gru-rec") n = false ->
  contains (u8"sp-rec") n = false ->
  contains (u8"sp-pe") n = false ->
  contains (u8"destino pe") n = false ->
  contains (u8"rumo pe") n = false ->
  contains (u8"rec.") n = false ->
  has_recife U n = false.
Proof.
  intros H1 H2 Hrec Hpe H3 H4 H5 H6 H7 H8.
  assert (Ha : contains (u8" rec ") (padded n) = false).
  { destruct (contains (u8" rec ") (padded n)) eqn:E; [| reflexivity].
    rewrite <- Hrec. symmetry.
    apply (padded_token (u8"rec") n); [reflexivity | discriminate | exact E]. }
  assert (Hb : contains (u8"-rec ") n = false).
  { destruct (contains (u8"-rec ") n) eqn:E; [| reflexivity].
    apply (contains_token 45%N (u8"rec") 32%N) in E; try reflexivity.
    unfold bounded_token in Hrec. rewrite E, orb_true_r in Hrec.
    discriminate. }
  assert (Hc : contains (u8" rec-") n = false).
  { destruct (contains (u8" rec-") n) eqn:E; [| reflexivity].
    apply (contains_token 32%N (u8"rec") 45%N) in E; try reflexivity.
    unfold bounded_token in Hrec. rewrite E, orb_true_r in Hrec.
    discriminate. }
  assert (Hd : contains (u8" pe ") (padded n) = false).
  { destruct (contains (u8" pe ") (padded n)) eqn:E; [| reflexivity].
    rewrite <- Hpe. symmetry.
    apply (padded_token (u8"pe") n); [reflexivity | discriminate | exact E]. }
  assert (He : contains (u8"para pe ") (padded n) = false).
  { destruct (contains (u8"para pe ") (padded n)) eqn:E; [| reflexivity].
    apply (contains_tail (u8"para") (u8" pe ")) in E. congruence. }
  unfold has_recife.
  rewrite H1, H2, Ha, Hb, Hc, H8, H3, H4, Hd, H5, He, H6, H7. reflexivity.
Qed.

(** The Recife indicator is false on a text that holds none of its
    patterns: neither "recife" nor "pernambuco", neither "rec" nor "pe"
    as a token bounded by spaces, hyphens or the ends of the text, and,
    as plain substrings, none of gru-rec, sp-rec, sp-pe, para pe,
    destino pe, rumo pe and "rec." *)
Lemma recife_indicator_needs_token :
  forall U title summary,
    contains (normalize_text U (u8"recife")) (post_text U title summary)
    = false ->
    contains (normalize_text U (u8"pernambuco")) (post_text U title summary)
    = false ->
    bounded_token (u8"rec") (post_text U title summary) = false ->
    bounded_token (u8"pe") (post_text U title summary) = false ->
    contains (u8"gru-rec") (post_text U title summary) = false ->
    contains (u8"sp-rec") (post_text U title summary) = false ->
    contains (u8"sp-pe") (post_text U title summary) = false ->
    contains (u8"para pe") (post_text U title summary) = false ->
    contains (u8"destino pe") (post_text U title summary) = false ->
    contains (u8"rumo pe") (post_text U title summary) = false ->
    contains (u8"rec.") (post_text U title summary) = false ->
    has_recife U (post_text U title summary) = false.
Proof.
  intros U title summary H1 H2 Hrec Hpe H3 H4 H5 _ H6 H7 H8.
  now apply has_recife_without_tokens.
Qed.

(** C4. The code where a pattern has no boundary.  In "Passagem com
    prec. baixo para Salvador" the letters rec lie inside the word
    "prec", and in "Passagem com destino perfeito" the letters pe lie
    inside "perfeito"; neither text holds "recife" or "pernambuco", the
    token "rec" or "pe", or one of the compound tokens gru-rec, sp-rec,
    sp-pe, para pe, destino pe, rumo pe as a token.  The Recife indicator
    holds of both and the keyword predicate admits both: the patterns
    "rec." and "destino pe" are looked for as plain substrings, the
    first without a boundary on its left, the second without one on its
    right. *)
Theorem recife_indicator_matches_inside_words :
  (let n := post_text latin (u8"Passagem com prec. baixo para Salvador") [] in
   n = u8"passagem com prec. baixo para salvador"
   /\ contains (u8"recife") n = false
   /\ contains (u8"pernambuco") n = false
   /\ bounded_token (u8"rec") n = false
   /\ bounded_token (u8"pe") n = false
   /\ existsb (fun w => contains w n)
        [ u8"gru-rec"; u8"sp-rec"; u8"sp-pe"; u8"para pe"; u8"destino pe";
          u8"rumo pe" ] = false
   /\ has_recife latin n = true
   /\ check_keyword_filter latin (keywords_on [])
        (u8"Passagem com prec. baixo para Salvador") [] = true)
  /\ (let n := post_text latin (u8"Passagem com destino perfeito") [] in
      n = u8"passagem com destino perfeito"
      /\ contains (u8"recife") n = false
      /\ contains (u8"pernambuco") n = false
      /\ bounded_token (u8"rec") n = false
      /\ bounded_token (u8"pe") n = false
      /\ existsb (fun w => bounded_token w n)
           [ u8"gru-rec"; u8"sp-rec"; u8"sp-pe"; u8"para pe";
             u8"destino pe"; u8"rumo pe" ] = false
      /\ has_recife latin n = true
      /\ check_keyword_filter latin (keywords_on [])
           (u8"Passagem com destino perfeito") [] = true).
Proof. repeat split; vm_compute; reflexivity. Qed.

(** ** The text normalizer *)

Section Normalizer.
Variable U : UCD.

Lemma text_eqb_eq a b : text_eqb a b = true -> a = b.
Proof. unfold text_eqb. destruct (list_eq_dec N.eq_dec a b); congruence. Qed.

(** *** Reordering moves marks only *)

Lemma insert_mark_split c out :
  exists a b, out = a ++ b /\ insert_mark U c out = a ++ c :: b.
Proof.
  induction out as [| d out IH]; simpl.
  - exists [], []. auto.
  - destruct (combining U c <? combining U d)%N.
    + destruct IH as (a & b & -> & ->). exists (d :: a), b. auto.
    + exists [], (d :: out). auto.
Qed.

Lemma strip_marks_app a b :
  strip_marks U (a ++ b) = strip_marks U a ++ strip_marks U b.
Proof. apply filter_app. Qed.

Lemma strip_marks_insert c out :
  category_Mn U c = true ->
  strip_marks U (rev (insert_mark U c out)) = strip_marks U (rev out).
Proof.
  intros Hc. destruct (insert_mark_split c out) as (a & b & -> & ->).
  rewrite !rev_app_distr. simpl. rewrite !strip_marks_app.
  rewrite <- app_assoc. simpl. unfold strip_marks at 2. simpl.
  rewrite Hc. reflexivity.
Qed.

Lemma strip_marks_order x : forall out,
  (forall d, In d x -> category_Mn U d = false -> combining U d = 0%N) ->
  strip_marks U (rev (fold_left (order_step U) x out))
  = strip_marks U (rev out) ++ strip_marks U x.
Proof.
  induction x as [| c x IH]; intros out H.
  - simpl. now rewrite app_nil_r.
  - cbn [fold_left]. rewrite IH by (intros d Hd; apply H; now right).
    change (c :: x) with ([c] ++ x).
    rewrite (strip_marks_app [c] x), app_assoc. f_equal.
    unfold order_step.
    destruct (combining U c =? 0)%N eqn:Hc.
    + cbn [rev]. apply strip_marks_app.
    + destruct (category_Mn U c) eqn:Hm.
      * rewrite strip_marks_insert by exact Hm.
        unfold strip_marks at 3. simpl. rewrite Hm. simpl.
        now rewrite app_nil_r.
      * rewrite (H c (or_introl eq_refl) Hm) in Hc. discriminate.
Qed.

Lemma strip_marks_canonical_order x :
  (forall d, In d x -> category_Mn U d = false -> combining U d = 0%N) ->
  strip_marks U (canonical_order U x) = strip_marks U x.
Proof. intros H. unfold canonical_order. now rewrite strip_marks_order. Qed.

(** *** After the first pass every character is settled *)

Lemma plain_bases s :
  forallb (plain U) s = true ->
  forall d, In d (flat_map (decomposition U) s) ->
    category_Mn U d = false -> base_ok U d = true.
Proof.
  intros H d Hd Hm. apply in_flat_map in Hd. destruct Hd as (c & Hc & Hd).
  rewrite forallb_forall in H. specialize (H c Hc).
  unfold plain in H. rewrite forallb_forall in H. specialize (H d Hd).
  now rewrite Hm in H.
Qed.

Lemma lower_go_settled x : forall before,
  (forall d, In d x -> base_ok U d = true) ->
  forallb (settled U) (lower_go U before x) = true.
Proof.
  induction x as [| c x IH]; intros before H; simpl; [reflexivity |].
  rewrite forallb_app. rewrite IH by (intros d Hd; apply H; now right).
  rewrite andb_true_r.
  pose proof (H c (or_introl eq_refl)) as Hc. unfold base_ok in Hc.
  apply andb_true_iff in Hc. destruct Hc as [_ Hc].
  unfold lower_outputs in Hc.
  destruct (c =? capital_sigma)%N; [| exact Hc].
  simpl in Hc. apply andb_true_iff in Hc. destruct Hc as [H1 Hc].
  rewrite andb_true_r in Hc.
  destruct (in_final_sigma_context U before x); simpl;
    now rewrite ?H1, ?Hc.
Qed.

Lemma lstrip_settled x :
  forallb (settled U) x = true -> forallb (settled U) (lstrip U x) = true.
Proof.
  induction x as [| c x IH]; simpl; [reflexivity |]. intros H.
  destruct (space U c); [| exact H].
  apply andb_true_iff in H. now apply IH.
Qed.

Lemma rev_settled x :
  forallb (settled U) x = true -> forallb (settled U) (rev x) = true.
Proof.
  rewrite !forallb_forall. intros H c Hc. apply H. now apply in_rev.
Qed.

Lemma strip_settled x :
  forallb (settled U) x = true -> forallb (settled U) (strip U x) = true.
Proof.
  intros H. unfold strip, rstrip.
  now apply rev_settled, lstrip_settled, rev_settled, lstrip_settled.
Qed.

(** *** Settled text goes through the passes unchanged *)

Lemma settled_parts e :
  settled U e = true ->
  decomposition U e = [e] /\ combining U e = 0%N /\
  category_Mn U e = false /\ lower_full U e = [e] /\
  (e =? capital_sigma)%N = false.
Proof.
  unfold settled. rewrite !andb_true_iff, !negb_true_iff.
  intros [[[[H1 H2] H3] H4] H5].
  apply text_eqb_eq in H1, H4. apply N.eqb_eq in H2. auto.
Qed.

Lemma flat_map_settled t :
  forallb (settled U) t = true -> flat_map (decomposition U) t = t.
Proof.
  induction t as [| e t IH]; simpl; [reflexivity |]. intros H.
  apply andb_true_iff in H. destruct H as [He Ht].
  destruct (settled_parts e He) as (-> & _). simpl. now rewrite IH.
Qed.

Lemma order_settled t : forall out,
  forallb (settled U) t = true ->
  fold_left (order_step U) t out = rev t ++ out.
Proof.
  induction t as [| e t IH]; intros out H; simpl; [reflexivity |].
  apply andb_true_iff in H. destruct H as [He Ht].
  destruct (settled_parts e He) as (_ & Hc & _).
  unfold order_step at 2. rewrite Hc. simpl.
  rewrite (IH _ Ht), <- app_assoc. reflexivity.
Qed.

Lemma nfd_settled t : forallb (settled U) t = true -> nfd U t = t.
Proof.
  intros H. unfold nfd, canonical_order.
  rewrite (flat_map_settled t H), (order_settled t [] H).
  rewrite app_nil_r. apply rev_involutive.
Qed.

Lemma strip_marks_settled t :
  forallb (settled U) t = true -> strip_marks U t = t.
Proof.
  induction t as [| e t IH]; simpl; [reflexivity |]. intros H.
  apply andb_true_iff in H. destruct H as [He Ht].
  destruct (settled_parts e He) as (_ & _ & -> & _). simpl.
  now rewrite IH.
Qed.

Lemma lower_go_fixed t : forall before,
  forallb (settled U) t = true -> lower_go U before t = t.
Proof.
  induction t as [| e t IH]; intros before H; simpl; [reflexivity |].
  apply andb_true_iff in H. destruct H as [He Ht].
  destruct (settled_parts e He) as (_ & _ & _ & -> & ->). simpl.
  now rewrite IH.
Qed.

(** *** [strip] is idempotent *)

Lemma lstrip_idem x : lstrip U (lstrip U x) = lstrip U x.
Proof.
  induction x as [| c x IH]; simpl; [reflexivity |].
  destruct (space U c) eqn:Hc; [exact IH |]. simpl. now rewrite Hc.
Qed.

Lemma lstrip_snoc w c :
  space U c = false -> lstrip U (w ++ [c]) = lstrip U w ++ [c].
Proof.
  intros Hc. induction w as [| d w IH]; simpl.
  - now rewrite Hc.
  - destruct (space U d); [exact IH | reflexivity].
Qed.

Lemma lstrip_start x :
  lstrip U x = [] \/
  exists c z, lstrip U x = c :: z /\ space U c = false.
Proof.
  induction x as [| c x IH]; simpl; [now left |].
  destruct (space U c) eqn:Hc; [exact IH |]. right. eauto.
Qed.

Lemma strip_idem x : strip U (strip U x) = strip U x.
Proof.
  assert (H : lstrip U (rstrip U (lstrip U x)) = rstrip U (lstrip U x)).
  { destruct (lstrip_start x) as [-> | (c & z & -> & Hc)];
      [reflexivity |].
    unfold rstrip. cbn [rev].
    rewrite (lstrip_snoc _ c Hc), rev_app_distr. simpl. now rewrite Hc. }
  unfold strip. rewrite H. unfold rstrip.
  now rewrite rev_involutive, lstrip_idem.
Qed.

Lemma normalize_text_settled y :
  forallb (settled U) y = true ->
  normalize_text U (strip U y) = strip U y.
Proof.
  intros H. pose proof (strip_settled y H) as Hs.
  unfold normalize_text. destruct (strip U y) as [| c t] eqn:E;
    [reflexivity |].
  rewrite (nfd_settled _ Hs), (strip_marks_settled _ Hs).
  unfold lower. rewrite (lower_go_fixed _ [] Hs).
  rewrite <- E. apply strip_idem.
Qed.

Lemma normalize_text_plain s :
  forallb (plain U) s = true ->
  normalize_text U (normalize_text U s) = normalize_text U s.
Proof.
  intros H. destruct s as [| c s]; [reflexivity |].
  unfold normalize_text at 2 3. set (t := c :: s) in *.
  apply normalize_text_settled. unfold lower. apply lower_go_settled.
  intros d Hd. unfold strip_marks in Hd. apply filter_In in Hd.
  destruct Hd as [Hd Hm]. apply negb_true_iff in Hm.
  assert (Hb : forall d, In d (flat_map (decomposition U) t) ->
                 category_Mn U d = false -> base_ok U d = true)
    by now apply plain_bases.
  assert (Hin : In d (strip_marks U (nfd U t))).
  { apply filter_In. split; [exact Hd | now rewrite Hm]. }
  unfold nfd in Hin. rewrite strip_marks_canonical_order in Hin.
  - apply filter_In in Hin. apply Hb; [apply Hin | exact Hm].
  - intros e He Hme. specialize (Hb e He Hme). unfold base_ok in Hb.
    apply andb_true_iff in Hb. now apply N.eqb_eq.
Qed.
End Normalizer.

(** C8, as the code has it.  [normalize_text] is idempotent on every
    string of plain characters: characters whose canonical decomposition
    consists of nonspacing marks and of characters of combining class 0
    whose lowercase forms are in turn undecomposable, of class 0,
    unmarked and unchanged by lowercasing.  Every character of ASCII and
    Latin-1 is plain.  The empty string yields the empty string. *)
Theorem normalize_text_idempotent_on_plain :
  (forall U s,
      forallb (plain U) s = true ->
      normalize_text U (normalize_text U s) = normalize_text U s)
  /\ (forall U, normalize_text U [] = [])
  /\ forallb (plain latin) latin1 = true.
Proof.
  split; [| split].
  - intros U s. apply normalize_text_plain.
  - reflexivity.
  - vm_compute. reflexivity.
Qed.

Lemma normalize_text_idempotent_on_plain_witness :
  normalize_text latin (normalize_text latin (u8"  Promoção em São Paulo "))
  = normalize_text latin (u8"  Promoção em São Paulo ").
Proof.
  apply (proj1 normalize_text_idempotent_on_plain latin
           (u8"  Promoção em São Paulo ")).
  vm_compute. reflexivity.
Defined.

(** C8 fails as stated: removing the nonspacing mark between two spacing
    marks of classes 226 and 224 leaves them next to each other and out of
    canonical order, and a second normalization swaps them. *)
Lemma normalize_text_counterexample :
  normalize_text latin marks_out_of_order = [0x1D16D; 0x302E]%N
  /\ normalize_text latin (normalize_text latin marks_out_of_order)
     = [0x302E; 0x1D16D]%N
  /\ normalize_text latin (normalize_text latin marks_out_of_order)
     <> normalize_text latin marks_out_of_order.
Proof.
  repeat split; try (vm_compute; reflexivity).
  vm_compute. discriminate.
Qed.

(** * Beyond the claims *)

(** ** The loop of [fetch_feed] *)

Lemma fold_left_invariant {A B} (f : A -> B -> A) (P : A -> Prop) l :
  forall a, P a -> (forall a b, In b l -> P a -> P (f a b)) ->
  P (fold_left f l a).
Proof.
  induction l as [| b l IH]; intros a Ha Hf; simpl; [exact Ha |].
  apply IH.
  - apply Hf; [now left | exact Ha].
  - intros a' b' Hb. apply Hf. now right.
Qed.

Lemma text_eqb_refl a : text_eqb a a = true.
Proof. unfold text_eqb. destruct (list_eq_dec N.eq_dec a a); congruence. Qed.

Lemma is_seen_add seen i j :
  is_seen (add_seen seen i) j = is_seen seen j || text_eqb j i.
Proof.
  unfold add_seen. destruct (is_seen seen i) eqn:Hi; simpl.
  - destruct (text_eqb j i) eqn:Hj; [| now rewrite orb_false_r].
    apply text_eqb_eq in Hj. subst j. now rewrite Hi.
  - apply orb_comm.
Qed.

Section FeedFacts.
Variable U : UCD.
Variable config : filters_config.
Variable aviation_apis : bool.
Variable price_checker : option (option (float * text)).

#[local] Abbreviation process :=
  (process_entry U config aviation_apis price_checker).
#[local] Abbreviation fetch :=
  (fetch_feed U config aviation_apis price_checker).

Lemma apply_filters_decision m p :
  fst (apply_filters U config m p) =
  negb (get (enabled config) false)
  || check_keyword_filter U config (get (title p) []) (get (summary p) []).
Proof.
  unfold apply_filters.
  destruct (get (enabled config) false); simpl; [| reflexivity].
  destruct (negb _ && _); reflexivity.
Qed.

Lemma process_passed_over name acc e :
  passed_over U name (seen_posts (snd acc)) e = true ->
  process name acc e = acc.
Proof.
  unfold passed_over, process_entry. destruct acc as [posts st]. simpl.
  intros H. apply orb_true_iff in H. destruct H as [H | H].
  - now rewrite H.
  - rewrite H. now destruct (_ || _).
Qed.

(** What the enrichment stages leave alone. *)
Lemma enriched_same p :
  let p1 := if aviation_apis then enhance_post_with_apis U p else p in
  let p2 := match price_checker with
            | Some market => with_price_analysis U market p1
            | None => p1
            end in
  fp_id p2 = fp_id p /\ fp_feed_name p2 = fp_feed_name p /\
  fp_title p2 = fp_title p /\ fp_link p2 = fp_link p /\
  fp_summary p2 = fp_summary p.
Proof.
  assert (H1 : forall q,
             fp_id (enhance_post_with_apis U q) = fp_id q /\
             fp_feed_name (enhance_post_with_apis U q) = fp_feed_name q /\
             fp_title (enhance_post_with_apis U q) = fp_title q /\
             fp_link (enhance_post_with_apis U q) = fp_link q /\
             fp_summary (enhance_post_with_apis U q) = fp_summary q).
  { intros q. unfold enhance_post_with_apis.
    destruct (existsb _ _); simpl; auto. }
  assert (H2 : forall market q,
             fp_id (with_price_analysis U market q) = fp_id q /\
             fp_feed_name (with_price_analysis U market q) = fp_feed_name q /\
             fp_title (with_price_analysis U market q) = fp_title q /\
             fp_link (with_price_analysis U market q) = fp_link q /\
             fp_summary (with_price_analysis U market q) = fp_summary q).
  { intros market q. unfold with_price_analysis.
    destruct (enhance_post_with_price_analysis U (as_post q) market);
      simpl; auto. }
  simpl. destruct price_checker as [market |].
  - destruct (H2 market (if aviation_apis
                         then enhance_post_with_apis U p else p))
      as (-> & -> & -> & -> & ->).
    destruct aviation_apis; [apply H1 | auto].
  - destruct aviation_apis; [apply H1 | auto].
Qed.

(** One step of the loop, case by case. *)
Lemma process_step name posts st e :
  passed_over U name (seen_posts st) e = false ->
  exists p log,
    fp_id p = make_post_id U name e /\
    fp_feed_name p = name /\
    fp_title p = strip U (get (entry_title e) (u8"No title")) /\
    fp_summary p = get (entry_summary e) (get (entry_description e) []) /\
    ((admitted U config p = true /\
      process name (posts, st) e =
      (posts ++ [p],
       {| seen_posts := add_seen (seen_posts st) (make_post_id U name e);
          filtered_posts := filtered_posts st ++ [p];
          rejected_posts := rejected_posts st;
          rejection_log := log |}))
     \/
     (admitted U config p = false /\
      process name (posts, st) e =
      (posts,
       {| seen_posts := add_seen (seen_posts st) (make_post_id U name e);
          filtered_posts := filtered_posts st;
          rejected_posts := rejected_posts st ++ [p];
          rejection_log := log |}))).
Proof.
  unfold passed_over. intros H.
  apply orb_false_iff in H. destruct H as [H Hs].
  unfold process_entry. rewrite H, Hs.
  set (i := make_post_id U name e).
  set (p := make_post U name i e).
  destruct (apply_filters U config (rejection_log st) (as_post p))
    as [passed log] eqn:Ha.
  destruct passed.
  - pose proof (enriched_same p) as He. simpl in He.
    set (p2 := match price_checker with
               | Some market =>
                   with_price_analysis U market
                     (if aviation_apis then enhance_post_with_apis U p else p)
               | None =>
                   if aviation_apis then enhance_post_with_apis U p else p
               end) in *.
    destruct He as (E1 & E2 & E3 & E4 & E5).
    exists p2, log. repeat split; try (rewrite ?E1, ?E2, ?E3, ?E5; reflexivity).
    left. split; [| reflexivity].
    pose proof (apply_filters_decision (rejection_log st) (as_post p)) as Hd.
    rewrite Ha in Hd. cbn [fst] in Hd. unfold admitted. rewrite E3, E5.
    symmetry. exact Hd.
  - exists p, log. repeat split.
    right. split; [| reflexivity].
    pose proof (apply_filters_decision (rejection_log st) (as_post p)) as Hd.
    rewrite Ha in Hd. cbn [fst] in Hd. unfold admitted.
    symmetry. exact Hd.
Qed.

Lemma process_prefix name a posts st e :
  process name (a ++ posts, st) e =
  (a ++ fst (process name (posts, st) e), snd (process name (posts, st) e)).
Proof.
  unfold process_entry.
  destruct (is_empty _ || ends_with_colon _); [reflexivity |].
  destruct (is_seen _ _); [reflexivity |].
  destruct (apply_filters _ _ _ _) as [[|] lg]; simpl;
    now rewrite ?app_assoc.
Qed.

Lemma process_seen_mono name acc e i :
  is_seen (seen_posts (snd acc)) i = true ->
  is_seen (seen_posts (snd (process name acc e))) i = true.
Proof.
  destruct acc as [posts st]. intros H.
  destruct (passed_over U name (seen_posts st) e) eqn:Hp.
  - rewrite process_passed_over by exact Hp. exact H.
  - destruct (process_step name posts st e Hp)
      as (p & log & _ & _ & _ & _ & [[_ ->] | [_ ->]]); simpl in *;
      rewrite is_seen_add, H; reflexivity.
Qed.

Lemma process_marks name acc e :
  passed_over U name (seen_posts (snd (process name acc e))) e = true.
Proof.
  destruct acc as [posts st].
  destruct (passed_over U name (seen_posts st) e) eqn:Hp.
  - rewrite process_passed_over by exact Hp. exact Hp.
  - destruct (process_step name posts st e Hp)
      as (p & log & _ & _ & _ & _ & [[_ ->] | [_ ->]]); simpl;
      unfold passed_over; rewrite is_seen_add, text_eqb_refl;
      now rewrite !orb_true_r.
Qed.

Lemma passed_over_mono name s1 s2 e :
  (forall i, is_seen s1 i = true -> is_seen s2 i = true) ->
  passed_over U name s1 e = true -> passed_over U name s2 e = true.
Proof.
  unfold passed_over. intros Hm H.
  apply orb_true_iff in H. destruct H as [H | H].
  - now rewrite H.
  - rewrite (Hm _ H). apply orb_true_r.
Qed.

Lemma fold_seen_mono name l : forall acc i,
  is_seen (seen_posts (snd acc)) i = true ->
  is_seen (seen_posts (snd (fold_left (process name) l acc))) i = true.
Proof.
  induction l as [| e l IH]; intros acc i H; simpl; [exact H |].
  apply IH. now apply process_seen_mono.
Qed.

Lemma fold_marks name l : forall acc e,
  In e l ->
  passed_over U name
    (seen_posts (snd (fold_left (process name) l acc))) e = true.
Proof.
  induction l as [| a l IH]; intros acc e Hin; [destruct Hin |].
  simpl. destruct Hin as [<- | Hin]; [| now apply IH].
  apply passed_over_mono with (s1 := seen_posts (snd (process name acc a))).
  - intros i. apply fold_seen_mono.
  - apply process_marks.
Qed.

Lemma fold_passed_over name l : forall acc,
  (forall e, In e l ->
     passed_over U name (seen_posts (snd acc)) e = true) ->
  fold_left (process name) l acc = acc.
Proof.
  induction l as [| a l IH]; intros acc H; simpl; [reflexivity |].
  rewrite process_passed_over by (apply H; now left).
  apply IH. intros e He. apply H. now right.
Qed.

Lemma fold_prefix name l : forall a posts st,
  fold_left (process name) l (a ++ posts, st) =
  (a ++ fst (fold_left (process name) l (posts, st)),
   snd (fold_left (process name) l (posts, st))).
Proof.
  induction l as [| e l IH]; intros a posts st; [reflexivity |].
  cbn [fold_left]. rewrite process_prefix.
  destruct (process name (posts, st) e) as [posts1 st1].
  cbn [fst snd]. apply IH.
Qed.

(** One step of the loop on an entry that is not passed over. *)
Lemma process_new name posts st e :
  passed_over U name (seen_posts st) e = false ->
  let p := post_of_entry U name e in
  let log := snd (apply_filters U config (rejection_log st) (as_post p)) in
  process name (posts, st) e =
  if admitted U config p
  then (posts ++ [enriched U aviation_apis price_checker p],
        {| seen_posts := add_seen (seen_posts st) (make_post_id U name e);
           filtered_posts :=
             filtered_posts st
             ++ [enriched U aviation_apis price_checker p];
           rejected_posts := rejected_posts st;
           rejection_log := log |})
  else (posts,
        {| seen_posts := add_seen (seen_posts st) (make_post_id U name e);
           filtered_posts := filtered_posts st;
           rejected_posts := rejected_posts st ++ [p];
           rejection_log := log |}).
Proof.
  intros H. cbv zeta. unfold passed_over in H.
  apply orb_false_iff in H. destruct H as [H Hs].
  unfold process_entry. rewrite H, Hs.
  fold (post_of_entry U name e). set (p := post_of_entry U name e).
  pose proof (apply_filters_decision (rejection_log st) (as_post p)) as Hd.
  destruct (apply_filters U config (rejection_log st) (as_post p))
    as [passed lg].
  cbn [fst snd] in *. unfold admitted.
  cbn [as_post title summary get] in Hd. rewrite <- Hd.
  destruct passed; reflexivity.
Qed.

Lemma fold_sorted name l : forall posts st,
  let news :=
    map (post_of_entry U name) (new_entries U name (seen_posts st) l) in
  fst (fold_left (process name) l (posts, st))
  = posts ++ map (enriched U aviation_apis price_checker)
               (filter (admitted U config) news)
  /\ filtered_posts (snd (fold_left (process name) l (posts, st)))
     = filtered_posts st
       ++ map (enriched U aviation_apis price_checker)
            (filter (admitted U config) news)
  /\ rejected_posts (snd (fold_left (process name) l (posts, st)))
     = rejected_posts st
       ++ filter (fun p => negb (admitted U config p)) news.
Proof.
  induction l as [| e l IH]; intros posts st.
  - cbn. now rewrite !app_nil_r.
  - cbn [fold_left new_entries].
    destruct (passed_over U name (seen_posts st) e) eqn:Hp.
    + rewrite process_passed_over by exact Hp. apply IH.
    + rewrite (process_new name posts st e Hp).
      cbn [map filter].
      destruct (admitted U config (post_of_entry U name e)) eqn:Ha.
      * match goal with
        | |- context [fold_left _ l (_, ?s)] =>
            destruct (IH (posts
                          ++ [enriched U aviation_apis price_checker
                                (post_of_entry U name e)]) s)
              as (H1 & H2 & H3)
        end.
        cbn [seen_posts filtered_posts rejected_posts] in H1, H2, H3.
        rewrite H1, H2, H3. cbn [negb map filter].
        now rewrite <- !app_assoc.
      * match goal with
        | |- context [fold_left _ l (_, ?s)] =>
            destruct (IH posts s) as (H1 & H2 & H3)
        end.
        cbn [seen_posts filtered_posts rejected_posts] in H1, H2, H3.
        rewrite H1, H2, H3. cbn [negb map filter].
        now rewrite <- !app_assoc.
Qed.

Lemma new_entries_length name seen l :
  (length (new_entries U name seen l) <= length l)%nat.
Proof.
  revert seen. induction l as [| e l IH]; intros seen; cbn; [lia |].
  destruct (passed_over U name seen e); cbn.
  - specialize (IH seen). lia.
  - specialize (IH (add_seen seen (make_post_id U name e))). lia.
Qed.

(** X1. [fetch_feed] never forgets an id, and after it each of the five
    entries it looked at is passed over: its id is unusable or is now in
    [seen_posts], whether the post passed the filters or not. *)
Theorem fetch_feed_remembers_entries :
  forall name entries st,
    (forall i, is_seen (seen_posts st) i = true ->
       is_seen (seen_posts (snd (fetch name entries st))) i = true)
    /\ (forall e, In e (firstn 5 entries) ->
          passed_over U name
            (seen_posts (snd (fetch name entries st))) e = true).
Proof.
  intros name entries st. unfold fetch_feed. split.
  - intros i. apply (fold_seen_mono name _ ([], st)).
  - intros e. apply fold_marks.
Qed.

(** X2. Fetching the same entries again finds nothing: the second pass
    returns no post and leaves the state as it is. *)
Theorem fetch_feed_again_finds_nothing :
  forall name entries st,
    fetch_feed U config aviation_apis price_checker name entries
      (snd (fetch_feed U config aviation_apis price_checker name entries st))
    = ([],
       snd (fetch_feed U config aviation_apis price_checker name entries st)).
Proof.
  intros name entries st. unfold fetch_feed at 1.
  apply fold_passed_over. intros e He. simpl.
  unfold fetch_feed. now apply fold_marks.
Qed.

(** X3. [fetch_feed] sorts the new entries among the five latest ones,
    those with a usable id that was not seen and is not the id of an
    earlier one: the posts it returns are the posts built for the new
    entries that the filter decision admits, in their order and after
    the enrichment stages, and they are what it appends to
    [filtered_posts]; the posts of the other new entries, and only
    they, are appended to [rejected_posts]. *)
Theorem fetch_feed_sorts_posts :
  forall name entries st,
    let news :=
      map (post_of_entry U name)
        (new_entries U name (seen_posts st) (firstn 5 entries)) in
    fst (fetch_feed U config aviation_apis price_checker name entries st)
    = map (enriched U aviation_apis price_checker)
        (filter (admitted U config) news)
    /\ filtered_posts
         (snd (fetch_feed U config aviation_apis price_checker name
                 entries st))
       = filtered_posts st
         ++ fst (fetch_feed U config aviation_apis price_checker name
                   entries st)
    /\ rejected_posts
         (snd (fetch_feed U config aviation_apis price_checker name
                 entries st))
       = rejected_posts st
         ++ filter (fun p => negb (admitted U config p)) news
    /\ (length news <= 5)%nat
    /\ (length news <= length entries)%nat.
Proof.
  intros name entries st news. unfold fetch_feed.
  destruct (fold_sorted name (firstn 5 entries) [] st) as (H1 & H2 & H3).
  cbn [app] in H1. fold news in H1, H2, H3.
  rewrite H1, H2, H3.
  split; [reflexivity | split; [reflexivity | split; [reflexivity |]]].
  unfold news. rewrite length_map.
  pose proof (new_entries_length name (seen_posts st) (firstn 5 entries))
    as Hl.
  rewrite length_firstn in Hl. lia.
Qed.

Lemma NoDup_snoc {A} (l : list A) a :
  NoDup l -> ~ In a l -> NoDup (l ++ [a]).
Proof.
  induction l as [| b l IH]; intros Hl Ha; simpl.
  - constructor; [intros [] | constructor].
  - inversion Hl as [| ? ? Hb Hl']; subst. constructor.
    + rewrite in_app_iff. intros [H | [H | []]]; [contradiction |].
      subst. apply Ha. now left.
    + apply IH; [exact Hl' |]. intros H. apply Ha. now right.
Qed.

Lemma process_fresh st0 name acc e :
  collected_fresh st0 acc -> collected_fresh st0 (process name acc e).
Proof.
  destruct acc as [np st]. intros (H1 & H2 & H3 & H4).
  destruct (passed_over U name (seen_posts st) e) eqn:Hp.
  - rewrite process_passed_over by exact Hp.
    split; [exact H1 | split; [exact H2 | split; [exact H3 | exact H4]]].
  - pose proof Hp as Hs. unfold passed_over in Hs.
    apply orb_false_iff in Hs. destruct Hs as [_ Hs].
    cbn [snd fst] in *.
    destruct (process_step name np st e Hp)
      as (p & log & Hid & _ & _ & _ & [[_ ->] | [_ ->]]);
      unfold collected_fresh; cbn [fst snd seen_posts filtered_posts].
    + split; [| split; [| split]].
      * rewrite H1. now rewrite app_assoc.
      * rewrite map_app. simpl. apply NoDup_snoc; [exact H2 |].
        intros Hin. apply in_map_iff in Hin.
        destruct Hin as (q & Hq & Hin).
        destruct (H3 q Hin) as [_ Hseen].
        rewrite Hq, Hid in Hseen. congruence.
      * intros q Hq. rewrite is_seen_add. apply in_app_iff in Hq.
        destruct Hq as [Hq | [<- | []]].
        -- destruct (H3 q Hq) as [-> ->]. auto.
        -- rewrite Hid, text_eqb_refl, orb_true_r. split; [| reflexivity].
           destruct (is_seen (seen_posts st0) (make_post_id U name e)) eqn:E;
             [| reflexivity].
           apply H4 in E. congruence.
      * intros i Hi. rewrite is_seen_add, (H4 i Hi). reflexivity.
    + split; [exact H1 | split; [exact H2 | split]].
      * intros q Hq. rewrite is_seen_add.
        destruct (H3 q Hq) as [-> ->]. auto.
      * intros i Hi. rewrite is_seen_add, (H4 i Hi). reflexivity.
Qed.

Lemma collect_feed_fold acc feed :
  collect_feed U config aviation_apis price_checker acc feed =
  fold_left (process (fst feed)) (firstn 5 (snd feed)) acc.
Proof.
  destruct acc as [np st]. unfold collect_feed, fetch_feed.
  pose proof (fold_prefix (fst feed) (firstn 5 (snd feed)) np [] st) as H.
  rewrite app_nil_r in H. rewrite H.
  now destruct (fold_left _ _ ([], st)).
Qed.

Lemma collect_feeds_fresh feeds st0 :
  collected_fresh st0
    (collect_feeds U config aviation_apis price_checker feeds st0).
Proof.
  unfold collect_feeds. apply fold_left_invariant.
  - unfold collected_fresh. simpl. rewrite app_nil_r.
    split; [reflexivity | split; [constructor | split]].
    + intros q [].
    + auto.
  - intros acc feed _ Hacc. rewrite collect_feed_fold.
    apply fold_left_invariant; [exact Hacc |].
    intros a e _. apply process_fresh.
Qed.

(** X4. In what [monitor_feeds] collects no two posts share an id and no
    post has an id that was seen before the run, however the feeds repeat
    their entries. *)
Theorem collected_posts_are_new :
  forall feeds seen,
    NoDup (map fp_id
             (fst (collect_feeds U config aviation_apis price_checker feeds
                     (start_state seen))))
    /\ (forall p,
          In p (fst (collect_feeds U config aviation_apis price_checker
                       feeds (start_state seen))) ->
          is_seen seen (fp_id p) = false).
Proof.
  intros feeds seen.
  destruct (collect_feeds_fresh feeds (start_state seen))
    as (_ & H2 & H3 & _).
  split; [exact H2 |]. intros p Hp. now apply H3.
Qed.

(** X5. The posts collected by [monitor_feeds] are exactly its
    [filtered_posts], so the last assignment to [new_posts] either empties
    it (filtering enabled and fewer than [min_posts] posts passed) or
    leaves it as it is. *)
Theorem collected_posts_are_filtered_posts :
  forall feeds seen min_posts,
    filtered_posts
      (snd (collect_feeds U config aviation_apis price_checker feeds
              (start_state seen)))
    = fst (collect_feeds U config aviation_apis price_checker feeds
             (start_state seen))
    /\ select_new_posts config min_posts
         (fst (collect_feeds U config aviation_apis price_checker feeds
                 (start_state seen)))
         (snd (collect_feeds U config aviation_apis price_checker feeds
                 (start_state seen)))
       = if get (enabled config) false
            && (Z.of_nat
                  (length
                     (fst (collect_feeds U config aviation_apis
                             price_checker feeds (start_state seen))))
                <? min_posts)%Z
         then []
         else fst (collect_feeds U config aviation_apis price_checker feeds
                     (start_state seen)).
Proof.
  intros feeds seen min_posts.
  destruct (collect_feeds_fresh feeds (start_state seen)) as (H1 & _).
  simpl in H1. split; [exact H1 |].
  unfold select_new_posts. rewrite H1.
  destruct (get (enabled config) false); reflexivity.
Qed.
End FeedFacts.

(** ** The rejection log *)

Lemma set_count_prints d key v :
  (total_prints (set_count d key v) + prints_for (get (count_of d key) 0)
   = total_prints d + prints_for v)%nat.
Proof.
  unfold total_prints. induction d as [| [k w] d IH]; simpl.
  - change (prints_for 0) with 0%nat. lia.
  - destruct (text_eqb k key); simpl; [lia |]. lia.
Qed.

Lemma set_count_bound d key v :
  (v <= 4)%nat ->
  Forall (fun kv => (snd kv <= 4)%nat) d ->
  Forall (fun kv => (snd kv <= 4)%nat) (set_count d key v).
Proof.
  intros Hv H. induction d as [| [k w] d IH]; simpl.
  - constructor; [exact Hv | constructor].
  - inversion H as [| ? ? Hw Hd]; subst.
    destruct (text_eqb k key); constructor; auto.
Qed.

Lemma log_rejection_sound m p t :
  log_sound m -> log_sound (log_rejection m p t).
Proof.
  intros [Hb Hl]. unfold log_rejection.
  set (name := get (feed_name p) (u8"unknown")).
  set (count := get (count_of (rejected_count_per_feed m) name) 0).
  pose proof (set_count_prints (rejected_count_per_feed m) name (count + 1))
    as Hs. fold count in Hs.
  destruct (count <? 3)%nat eqn:H3; [apply Nat.ltb_lt in H3 |].
  - split; simpl.
    + apply set_count_bound; [lia | exact Hb].
    + rewrite length_app, Hl. simpl. unfold prints_for in Hs.
      destruct (count <=? 3)%nat eqn:E1; [| apply Nat.leb_gt in E1; lia].
      destruct (count + 1 <=? 3)%nat eqn:E2; [| apply Nat.leb_gt in E2; lia].
      lia.
  - apply Nat.ltb_ge in H3.
    destruct (count =? 3)%nat eqn:E3; [apply Nat.eqb_eq in E3 | now split].
    split; simpl.
    + apply set_count_bound; [lia | exact Hb].
    + rewrite length_app, Hl. simpl. unfold prints_for in Hs.
      destruct (count <=? 3)%nat eqn:E1; [| apply Nat.leb_gt in E1; lia].
      destruct (count + 1 <=? 3)%nat eqn:E2; [apply Nat.leb_le in E2; lia |].
      lia.
Qed.

Lemma apply_filters_sound U config m p :
  log_sound m -> log_sound (snd (apply_filters U config m p)).
Proof.
  intros H. unfold apply_filters.
  destruct (negb (get (enabled config) false)); [exact H |].
  destruct (negb _ && _); simpl; [| exact H].
  now apply log_rejection_sound.
Qed.

Lemma total_prints_bound d :
  Forall (fun kv => (snd kv <= 4)%nat) d ->
  (total_prints d <= 7 * length d)%nat.
Proof.
  unfold total_prints. induction 1 as [| [k w] d Hw _ IH]; simpl; [lia |].
  simpl in Hw. unfold prints_for at 1.
  destruct (w <=? 3)%nat eqn:E; [apply Nat.leb_le in E |]; lia.
Qed.

(** X6. The rejection log is throttled: over any sequence of posts put
    through [apply_filters], starting with an empty log, no feed's
    counter goes above 4 and [print] is called at most 7 times for each
    feed that has a counter (twice for each of its first three
    rejections, once for the fourth, never after). *)
Theorem rejection_log_is_throttled :
  forall U config posts,
    let m := fold_left (fun m p => snd (apply_filters U config m p)) posts
               fresh_monitor in
    Forall (fun kv => (snd kv <= 4)%nat) (rejected_count_per_feed m)
    /\ length (printed m) = total_prints (rejected_count_per_feed m)
    /\ (length (printed m) <= 7 * length (rejected_count_per_feed m))%nat.
Proof.
  intros U config posts m.
  assert (H : log_sound m).
  { unfold m. apply fold_left_invariant.
    - split; [constructor | reflexivity].
    - intros a b _. apply apply_filters_sound. }
  destruct H as [Hb Hl]. repeat split; auto.
  rewrite Hl. now apply total_prints_bound.
Qed.

(** ** The exclude list of the route predicate *)

Lemma any_route_outcome U nt rs :
  any_route U nt rs =
  if reaches_malformed U nt rs then Raise ValueError
  else Ok (existsb (entry_matches U nt) rs).
Proof.
  induction rs as [| r rs IH]; simpl; [reflexivity |].
  destruct (entry_ok r) eqn:Hr.
  - rewrite (route_mentioned_ok U nt r Hr). simpl.
    destruct (entry_matches U nt r); simpl; [reflexivity | exact IH].
  - unfold entry_ok in Hr. apply orb_false_iff in Hr. destruct Hr as [Hc Hl].
    apply negb_false_iff in Hc.
    unfold route_mentioned. rewrite Hc.
    destruct (split arrow r) as [| o [| d [| x l]]]; try reflexivity.
    discriminate Hl.
Qed.

Lemma contains_nil s : contains [] s = true.
Proof. destruct s; reflexivity. Qed.

(** X7. With the route section enabled and no include list (absent or
    empty), the exclude list is a blacklist: when each of its entries is
    a bare location or an origin-destination pair, the route predicate
    returns true exactly when the post matches none of them.  With an
    empty exclude list every post passes; an exclude list that holds the
    empty string rejects every post. *)
Theorem route_exclude_is_blacklist :
  forall U config title summary,
    get_in (routes config) routes_enabled false = true ->
    get_in (routes config) routes_include [] = [] ->
    forallb entry_ok (get_in (routes config) routes_exclude []) = true ->
    check_route_filter U config title summary =
    Ok (negb (existsb (entry_matches U (post_text U title summary))
                (get_in (routes config) routes_exclude [])))
    /\ (get_in (routes config) routes_exclude [] = [] ->
        check_route_filter U config title summary = Ok true)
    /\ (In [] (get_in (routes config) routes_exclude []) ->
        check_route_filter U config title summary = Ok false).
Proof.
  intros U config title summary Hon Hin Hok.
  assert (H : check_route_filter U config title summary =
              Ok (negb (existsb (entry_matches U (post_text U title summary))
                          (get_in (routes config) routes_exclude [])))).
  { unfold check_route_filter. rewrite Hon, Hin. simpl negb. cbv iota.
    fold (post_text U title summary).
    now rewrite (any_route_ok U _ _ Hok). }
  split; [exact H | split].
  - intros He. rewrite H, He. reflexivity.
  - intros He. rewrite H. f_equal. apply negb_false_iff.
    apply existsb_exists. exists []. split; [exact He |].
    unfold entry_matches. simpl. apply contains_nil.
Qed.

Lemma route_exclude_is_blacklist_witness :
  check_route_filter latin (routes_on [] [u8"São Paulo -> Natal"; u8"Salvador"])
    (u8"Voo de São Paulo para Recife") [] = Ok true
  /\ check_route_filter latin (routes_on [] [u8"Recife"; []])
       (u8"Voo para Natal") [] = Ok false.
Proof.
  split.
  - rewrite (proj1 (route_exclude_is_blacklist latin
               (routes_on [] [u8"São Paulo -> Natal"; u8"Salvador"])
               (u8"Voo de São Paulo para Recife") []
               eq_refl eq_refl eq_refl)).
    vm_compute. reflexivity.
  - apply (proj2 (proj2 (route_exclude_is_blacklist latin
               (routes_on [] [u8"Recife"; []])
               (u8"Voo para Natal") [] eq_refl eq_refl eq_refl))).
    simpl. auto.
Defined.

(** X8. With the route section enabled and lists of strings for its
    include and exclude keys, [check_route_filter] raises [ValueError]
    exactly when the loop over the consulted list (the include list, or
    the exclude list when there is none) comes to an entry with more
    than one separator before any entry that matches the post.  When it
    does not, the answer is that of the entries alone: some include
    entry matches, or no exclude entry does; an entry with more than one
    separator that stands after the first match is never unpacked. *)
Theorem route_filter_raises_iff :
  forall U config title summary,
    get_in (routes config) routes_enabled false = true ->
    (check_route_filter U config title summary = Raise ValueError <->
     reaches_malformed U (post_text U title summary)
       (consulted_routes config) = true)
    /\ (reaches_malformed U (post_text U title summary)
          (consulted_routes config) = false ->
        check_route_filter U config title summary =
        Ok match get_in (routes config) routes_include [] with
           | [] =>
               negb (existsb (entry_matches U (post_text U title summary))
                       (get_in (routes config) routes_exclude []))
           | (_ :: _) as include_routes =>
               existsb (entry_matches U (post_text U title summary))
                 include_routes
           end).
Proof.
  intros U config title summary Hon.
  unfold check_route_filter, consulted_routes. rewrite Hon. simpl negb.
  cbv iota. fold (post_text U title summary).
  destruct (get_in (routes config) routes_include []) as [| r rs];
    rewrite any_route_outcome;
    match goal with
    | |- context [reaches_malformed ?u ?n ?l] =>
        destruct (reaches_malformed u n l)
    end; cbn [bind]; split;
    try (split; intros He; try reflexivity; discriminate He);
    intros He; try reflexivity; discriminate He.
Qed.

Lemma route_filter_raises_iff_witness :
  check_route_filter latin
    (routes_on [] [u8"Natal"; u8"Recife -> Natal -> Recife"])
    (u8"Voo para Recife") [] = Raise ValueError
  /\ check_route_filter latin
       (routes_on [u8"Natal"; u8"Recife -> Natal -> Recife"] [])
       (u8"Voo para Natal") [] = Ok true.
Proof.
  split.
  - apply (proj1 (route_filter_raises_iff latin
             (routes_on [] [u8"Natal"; u8"Recife -> Natal -> Recife"])
             (u8"Voo para Recife") [] eq_refl)).
    vm_compute. reflexivity.
  - rewrite (proj2 (route_filter_raises_iff latin
               (routes_on [u8"Natal"; u8"Recife -> Natal -> Recife"] [])
               (u8"Voo para Natal") [] eq_refl)).
    + vm_compute. reflexivity.
    + vm_compute. reflexivity.
Defined.

(** ** The airline predicate *)

(** X9. In [check_airline_filter] the exclude list overrides the include
    list: with the airline section enabled, a post whose lowercased text
    contains the lowercased name of an excluded airline is rejected
    whatever the include list holds; so an exclude list that holds the
    empty string rejects every post. *)
Theorem airline_exclude_overrides_include :
  forall U config title summary,
    get_in (airlines config) airlines_enabled false = true ->
    (forall airline,
        In airline (get_in (airlines config) airlines_exclude []) ->
        contains (lower U airline) (lower U (full_text title summary))
        = true ->
        check_airline_filter U config title summary = false)
    /\ (In [] (get_in (airlines config) airlines_exclude []) ->
        check_airline_filter U config title summary = false).
Proof.
  intros U config title summary Hon.
  assert (H : forall airline,
             In airline (get_in (airlines config) airlines_exclude []) ->
             contains (lower U airline) (lower U (full_text title summary))
             = true ->
             check_airline_filter U config title summary = false).
  { intros airline Hin Hc. unfold check_airline_filter.
    rewrite Hon. simpl negb. cbv iota.
    apply andb_false_iff. right. apply negb_false_iff.
    apply existsb_exists. exists airline. auto. }
  split; [exact H |].
  intros Hin. apply (H [] Hin). apply contains_nil.
Qed.

Lemma airline_exclude_overrides_include_witness :
  check_airline_filter latin (airlines_on [u8"Azul"; u8"GOL"] [u8"azul"])
    (u8"Passagem para Recife pela AZUL") [] = false.
Proof.
  apply (proj1 (airline_exclude_overrides_include latin
           (airlines_on [u8"Azul"; u8"GOL"] [u8"azul"])
           (u8"Passagem para Recife pela AZUL") [] eq_refl)
           (u8"azul")).
  - simpl. auto.
  - vm_compute. reflexivity.
Defined.

(** ** The amount that [extract_price] reads *)

Section FirstAmount.
Variable U : UCD.

(** The group of a match of the "reais" pattern is a number. *)
Lemma reais_group_parses t g l :
  findall (pattern_reais U) t = g :: l ->
  exists f, py_float U (price_str g) = Ok f.
Proof.
  intros H. apply findall_go_head in H.
  destruct H as (pre & s1 & cap & rest & _ & Hm & ->).
  unfold match_here, pattern_reais in Hm.
  cbn [rmatch] in Hm.
  change (rmatch (number U) s1 None
            (fun s2 _ =>
               rmatch (Seq (Star (blank U)) (word U (u8"reais") Eps)) s2
                 (Some (firstn (length s1 - length s2) s1))
                 (fun s' g => Some (g, s'))) = Some (cap, rest)) in Hm.
  apply rmatch_run in Hm.
  destruct Hm as (w & s2 & g1 & -> & Hw & Hk & _).
  rewrite firstn_consumed in Hk.
  apply rmatch_run in Hk.
  destruct Hk as (w' & s3 & g2 & _ & _ & Hk & Hg).
  rewrite (Hg eq_refl) in Hk. injection Hk as <- _.
  now apply number_group_parses.
Qed.

Lemma first_amount_decides t g :
  first_amount U t = Some g ->
  exists f, py_float U (price_str g) = Ok f
            /\ extract_price U t = Ok (Some f).
Proof.
  unfold first_amount. intros H.
  destruct t as [| c t]; [discriminate H |].
  unfold extract_price, price_patterns. set (s := c :: t) in *.
  cbn [try_patterns].
  destruct (findall (pattern_currency U) s) as [| g1 l1] eqn:Hc.
  - destruct (findall (pattern_reais U) s) as [| g2 l2] eqn:Hr;
      [discriminate H |].
    injection H as ->.
    destruct (reais_group_parses s g l2 Hr) as [f Hf].
    exists f. now rewrite Hf.
  - injection H as ->.
    destruct (currency_group_parses U s g l1 Hc) as [f Hf].
    exists f. now rewrite Hf.
Qed.

Lemma first_amount_none t :
  first_amount U t = None -> extract_price U t = Ok None.
Proof.
  unfold first_amount. intros H.
  destruct t as [| c t]; [reflexivity |].
  unfold extract_price, price_patterns. set (s := c :: t) in *.
  cbn [try_patterns].
  destruct (findall (pattern_currency U) s) as [| g1 l1] eqn:Hc;
    [| discriminate H].
  destruct (findall (pattern_reais U) s) as [| g2 l2] eqn:Hr;
    [| discriminate H].
  rewrite (pattern_por_needs_currency U s Hc).
  rewrite (pattern_partir_needs_currency U s Hc).
  reflexivity.
Qed.
End FirstAmount.

(** X10. [extract_price] reads the first amount after "R$" whenever the
    text has one, wherever an amount in "reais" stands; without any
    "R$" amount it reads the first amount followed by "reais"; the
    string it reads is always accepted by [float]; and it returns none
    exactly when neither pattern matches anywhere in the text. *)
Theorem extract_price_reads_first_amount :
  forall U t,
    (forall g l, findall (pattern_currency U) t = g :: l ->
                 first_amount U t = Some g)
    /\ (forall g, first_amount U t = Some g ->
                  exists f, py_float U (price_str g) = Ok f
                            /\ extract_price U t = Ok (Some f))
    /\ (extract_price U t = Ok None <-> first_amount U t = None).
Proof.
  intros U t. split; [| split].
  - intros g l H. unfold first_amount. now rewrite H.
  - apply first_amount_decides.
  - split; [| apply first_amount_none].
    intros H. destruct (first_amount U t) as [g |] eqn:Hg; [| reflexivity].
    destruct (first_amount_decides U t g Hg) as (f & _ & Hf). congruence.
Qed.

Lemma extract_price_reads_first_amount_witness :
  first_amount latin (u8"De 500 reais por R$ 1.234,56") = Some (u8"1.234,56")
  /\ exists f, py_float latin (price_str (u8"1.234,56")) = Ok f
               /\ extract_price latin (u8"De 500 reais por R$ 1.234,56")
                  = Ok (Some f).
Proof.
  split.
  - apply (proj1 (extract_price_reads_first_amount latin
                    (u8"De 500 reais por R$ 1.234,56")) _ []).
    vm_compute. reflexivity.
  - apply (proj1 (proj2 (extract_price_reads_first_amount latin
                    (u8"De 500 reais por R$ 1.234,56")))).
    vm_compute. reflexivity.
Defined.

(** ** The ends of a normalized text *)

Lemma strip_unspaced U x : unspaced_ends U (strip U x) = true.
Proof.
  unfold strip, unspaced_ends.
  destruct (lstrip_start U x) as [-> | (c & z & -> & Hc)]; [reflexivity |].
  unfold rstrip. rewrite rev_involutive. cbn [rev].
  rewrite (lstrip_snoc U _ c Hc), rev_app_distr. cbn [rev app].
  rewrite Hc. simpl.
  destruct (lstrip_start U (rev z)) as [-> | (d & y & -> & Hd)]; simpl.
  - now rewrite Hc.
  - now rewrite Hd.
Qed.

(** X11. [normalize_text] never returns a text that begins or ends with
    white space, whatever it is given. *)
Theorem normalize_text_has_no_outer_space :
  forall U t, unspaced_ends U (normalize_text U t) = true.
Proof.
  intros U t. destruct t as [| c t]; [reflexivity |].
  unfold normalize_text. apply strip_unspaced.
Qed.

(** ** The enrichment stages *)

Lemma starts_with_head a b x :
  starts_with (a ++ b) x = true -> starts_with a x = true.
Proof.
  revert x. induction a as [| c a IH]; intros x H; [reflexivity |].
  destruct x as [| d x]; [discriminate |]. simpl in *.
  apply andb_true_iff in H. destruct H as [-> H]. now apply IH.
Qed.

Lemma contains_head a b x :
  contains (a ++ b) x = true -> contains a x = true.
Proof.
  induction x as [| d x IH]; intros H.
  - simpl in *. rewrite orb_false_r in *. now apply starts_with_head in H.
  - simpl in H. apply orb_true_iff in H. simpl. destruct H as [H | H].
    + now rewrite (starts_with_head _ _ _ H).
    + rewrite (IH H). apply orb_true_r.
Qed.

Lemma contains_part a b c x :
  contains (a ++ b ++ c) x = true -> contains b x = true.
Proof. intros H. apply contains_tail in H. now apply contains_head in H. Qed.

(** X12. [enhance_post_with_apis] changes nothing but the flag
    [aviation_enhanced], and it sets the flag exactly when the lowercased
    title and summary contain "rec", "pernambuco" or " pe ": the term
    "recife" of its list adds nothing, and any word with the letters
    "rec" in it sets the flag. *)
Theorem aviation_flag_is_rec_substring :
  forall U p,
    fp_aviation_enhanced (enhance_post_with_apis U p)
    = fp_aviation_enhanced p
      || contains (u8"rec") (lowered_text U p)
      || contains (u8"pernambuco") (lowered_text U p)
      || contains (u8" pe ") (lowered_text U p)
    /\ fp_id (enhance_post_with_apis U p) = fp_id p
    /\ fp_feed_name (enhance_post_with_apis U p) = fp_feed_name p
    /\ fp_title (enhance_post_with_apis U p) = fp_title p
    /\ fp_link (enhance_post_with_apis U p) = fp_link p
    /\ fp_summary (enhance_post_with_apis U p) = fp_summary p
    /\ fp_price_analysis (enhance_post_with_apis U p) = fp_price_analysis p.
Proof.
  intros U p. split.
  - unfold enhance_post_with_apis, lowered_text.
    cbn [as_post title summary get existsb].
    set (x := lower U (full_text (fp_title p) (fp_summary p))).
    destruct (contains (u8"recife") x) eqn:H1.
    + change (u8"recife") with (u8"rec" ++ u8"ife") in H1.
      apply contains_head in H1. rewrite H1. cbn.
      now rewrite orb_true_r.
    + destruct (contains (u8"pernambuco") x),
               (contains (u8" pe ") x), (contains (u8"rec") x);
        cbn; rewrite ?orb_true_r, ?orb_false_r; reflexivity.
  - unfold enhance_post_with_apis. destruct (existsb _ _); cbn; auto 7.
Qed.

Lemma about_recife_is_flagged U p :
  _is_post_about_recife_flights U (as_post p) = true ->
  fp_aviation_enhanced (enhance_post_with_apis U p) = true.
Proof.
  unfold _is_post_about_recife_flights, enhance_post_with_apis.
  cbn [as_post title summary get].
  set (x := lower U (full_text (fp_title p) (fp_summary p))).
  intros H. apply andb_true_iff in H. destruct H as [H _].
  assert (Hx : existsb (fun term => contains term x)
                 [u8"recife"; u8"pernambuco"; u8" pe "; u8"rec"] = true).
  { apply existsb_exists in H. destruct H as (term & Hin & Hc).
    apply existsb_exists. cbn [In] in Hin.
    destruct Hin as [<- | [<- | [<- | [<- | [<- | [<- | [<- | []]]]]]]].
    - exists (u8"recife"). cbn [In]. auto.
    - exists (u8"pernambuco"). cbn [In]. auto.
    - exists (u8" pe "). cbn [In]. auto.
    - exists (u8"rec"). cbn [In]. split; [auto 6 |].
      change (u8" rec ") with (u8" " ++ u8"rec" ++ u8" ") in Hc.
      now apply contains_part in Hc.
    - exists (u8"rec"). cbn [In]. split; [auto 6 |].
      change (u8"-rec") with (u8"-" ++ u8"rec") in Hc.
      now apply contains_tail in Hc.
    - exists (u8"rec"). cbn [In]. split; [auto 6 |].
      change (u8"gru-rec") with (u8"gru-" ++ u8"rec") in Hc.
      now apply contains_tail in Hc.
    - exists (u8"rec"). cbn [In]. split; [auto 6 |].
      change (u8"sp-rec") with (u8"sp-" ++ u8"rec") in Hc.
      now apply contains_tail in Hc. }
  now rewrite Hx.
Qed.

Lemma enriched_flagged U market p :
  fp_price_analysis p = Untouched ->
  analysis_is_flagged U
    (with_price_analysis U market (enhance_post_with_apis U p)) = true.
Proof.
  intros Hp. set (p1 := enhance_post_with_apis U p).
  assert (Hsame : as_post p1 = as_post p).
  { unfold p1, enhance_post_with_apis. now destruct (existsb _ _). }
  assert (Hu : fp_price_analysis p1 = Untouched).
  { unfold p1, enhance_post_with_apis. now destruct (existsb _ _). }
  unfold with_price_analysis.
  destruct (enhance_post_with_price_analysis U (as_post p1) market)
    as [| a | e] eqn:He.
  - unfold analysis_is_flagged. now rewrite Hu.
  - unfold enhance_post_with_price_analysis in He.
    destruct (_is_post_about_recife_flights U (as_post p1)) eqn:Ha;
      [| discriminate He].
    unfold analysis_is_flagged, as_post in *. cbn.
    rewrite Ha. rewrite Hsame in Ha.
    unfold p1. now rewrite (about_recife_is_flagged U p Ha).
  - unfold enhance_post_with_price_analysis in He.
    destruct (_is_post_about_recife_flights U (as_post p1)) eqn:Ha;
      [| discriminate He].
    unfold analysis_is_flagged, as_post in *. cbn.
    rewrite Ha. rewrite Hsame in Ha.
    unfold p1. now rewrite (about_recife_is_flagged U p Ha).
Qed.

Lemma process_flagged U config price_checker name acc e :
  forallb (analysis_is_flagged U) (fst acc) = true ->
  forallb (analysis_is_flagged U)
    (fst (process_entry U config true price_checker name acc e)) = true.
Proof.
  destruct acc as [posts st]. cbn [fst]. intros H. unfold process_entry.
  destruct (is_empty _ || ends_with_colon _); [exact H |].
  destruct (is_seen _ _); [exact H |].
  destruct (apply_filters _ _ _ _) as [[|] lg]; cbn [fst]; [| exact H].
  rewrite forallb_app, H. cbn [forallb andb]. rewrite andb_true_r.
  destruct price_checker as [market |].
  - now apply enriched_flagged.
  - unfold analysis_is_flagged, enhance_post_with_apis.
    now destruct (existsb _ _).
Qed.

(** X13. With the aviation module loaded, every post that [fetch_feed]
    returns with a price analysis (a result or an error) also carries the
    flag [aviation_enhanced] and is about flights to Recife: the price
    stage never analyses a post that the aviation stage did not flag. *)
Theorem fetched_analysis_is_flagged :
  forall U config price_checker name entries st,
    forallb (analysis_is_flagged U)
      (fst (fetch_feed U config true price_checker name entries st)) = true.
Proof.
  intros U config price_checker name entries st. unfold fetch_feed.
  apply (fold_left_invariant
           (process_entry U config true price_checker name)
           (fun acc => forallb (analysis_is_flagged U) (fst acc) = true)).
  - reflexivity.
  - intros acc e _. apply process_flagged.
Qed.

(** ** The message of [send_telegram_notification] *)

Lemma show_posts_total ps : forall m t,
  (t <= 8)%nat ->
  snd (show_posts ps (m, t)) = Nat.min 8 (t + length ps).
Proof.
  induction ps as [| p ps IH]; intros m t Ht; cbn [show_posts length].
  - cbn [snd]. lia.
  - destruct (8 <=? t)%nat eqn:E.
    + apply Nat.leb_le in E. cbn [snd]. lia.
    + apply Nat.leb_gt in E. rewrite IH by lia. lia.
Qed.

Lemma show_feeds_total d : forall m t,
  (t <= 8)%nat ->
  snd (show_feeds d (m, t))
  = Nat.min 8 (t + list_sum (map (fun g => Nat.min 2 (length (snd g))) d)).
Proof.
  induction d as [| [name posts] d IH]; intros m t Ht;
    cbn [show_feeds map list_sum fold_right snd].
  - lia.
  - destruct (8 <=? t)%nat eqn:E.
    + apply Nat.leb_le in E. cbn [snd]. lia.
    + apply Nat.leb_gt in E.
      pose proof (show_posts_total (firstn 2 posts)
                    (m ++ u8"📰 *" ++ name ++ u8"*" ++ [newline]) t Ht)
        as Hp.
      destruct (show_posts (firstn 2 posts) _) as [m1 t1].
      cbn [snd] in Hp. rewrite length_firstn in Hp.
      rewrite IH by lia. unfold list_sum. lia.
Qed.

Lemma add_to_feed_keys d p :
  map fst (add_to_feed d p) =
  if existsb (fun k => text_eqb k (fp_feed_name p)) (map fst d)
  then map fst d else map fst d ++ [fp_feed_name p].
Proof.
  induction d as [| [k ps] d IH]; cbn [add_to_feed map fst existsb app].
  - reflexivity.
  - destruct (text_eqb k (fp_feed_name p)); cbn [orb map fst];
      [reflexivity |].
    rewrite IH. now destruct (existsb _ _).
Qed.

Lemma text_eqb_neq a b : text_eqb a b = false -> a <> b.
Proof.
  intros H ->. now rewrite text_eqb_refl in H.
Qed.

Lemma filter_snoc {A} (f : A -> bool) l a :
  filter f (l ++ [a]) = filter f l ++ (if f a then [a] else []).
Proof. now rewrite filter_app. Qed.

Lemma add_to_feed_has_keys d p k :
  In k (map fst (add_to_feed d p)) <->
  In k (map fst d) \/ k = fp_feed_name p.
Proof.
  rewrite add_to_feed_keys.
  destruct (existsb _ _) eqn:E.
  - split; [auto |]. intros [H | ->]; [exact H |].
    apply existsb_exists in E. destruct E as (k' & Hin & He).
    apply text_eqb_eq in He. now subst k'.
  - rewrite in_app_iff. cbn [In]. split.
    + intros [H | [H | []]]; auto.
    + intros [H | H]; auto.
Qed.

(** What the grouping keeps while it goes through the posts [l]: the
    names differ from each other, each group holds the posts of its feed
    in their order, and each post met so far has its group. *)
Lemma add_to_feed_grouped l d p :
  NoDup (map fst d) ->
  (forall k ps, In (k, ps) d -> ps = posts_of_feed k l /\ ps <> []) ->
  (forall q, In q l -> In (fp_feed_name q) (map fst d)) ->
  NoDup (map fst (add_to_feed d p))
  /\ (forall k ps, In (k, ps) (add_to_feed d p) ->
        ps = posts_of_feed k (l ++ [p]) /\ ps <> [])
  /\ (forall q, In q (l ++ [p]) ->
        In (fp_feed_name q) (map fst (add_to_feed d p))).
Proof.
  intros Hnd Hg Hall.
  assert (Hnone : ~ In (fp_feed_name p) (map fst d) ->
                  posts_of_feed (fp_feed_name p) l = []).
  { intros Hk. unfold posts_of_feed.
    destruct (filter _ l) as [| q r] eqn:Hf; [reflexivity |].
    assert (Hq : In q (filter
                         (fun p0 => text_eqb (fp_feed_name p)
                                      (fp_feed_name p0)) l)).
    { rewrite Hf. now left. }
    apply filter_In in Hq. destruct Hq as [Hq He].
    apply text_eqb_eq in He. elim Hk. rewrite He. now apply Hall. }
  assert (H3 : forall q, In q (l ++ [p]) ->
                 In (fp_feed_name q) (map fst (add_to_feed d p))).
  { intros q Hq. apply add_to_feed_has_keys.
    apply in_app_iff in Hq. destruct Hq as [Hq | [<- | []]]; auto. }
  cut (NoDup (map fst (add_to_feed d p))
       /\ (forall k ps, In (k, ps) (add_to_feed d p) ->
             ps = posts_of_feed k (l ++ [p]) /\ ps <> [])).
  { intros [I1 I2]. auto. }
  clear Hall H3.
  revert Hnd Hg Hnone.
  induction d as [| [k0 ps0] d IH]; intros Hnd Hg Hnone.
  - cbn [add_to_feed map fst]. split.
    + repeat constructor. intros [].
    + intros k ps [H | []]. injection H as <- <-.
      unfold posts_of_feed in *. rewrite filter_snoc, text_eqb_refl.
      rewrite (Hnone (fun x => x)). split; [reflexivity | discriminate].
  - cbn [add_to_feed]. cbn [map fst] in Hnd.
    inversion Hnd as [| ? ? Hk0 Hnd']; subst.
    destruct (text_eqb k0 (fp_feed_name p)) eqn:E.
    + apply text_eqb_eq in E. subst k0.
      cbn [map fst]. split; [exact Hnd |].
      intros k ps [H | H].
      * injection H as <- <-.
        destruct (Hg _ _ (or_introl eq_refl)) as [-> Hne].
        unfold posts_of_feed. rewrite filter_snoc, text_eqb_refl.
        split; [reflexivity |]. now destruct (filter _ l).
      * destruct (Hg _ _ (or_intror H)) as [-> Hne].
        split; [| exact Hne].
        unfold posts_of_feed. rewrite filter_snoc.
        destruct (text_eqb k (fp_feed_name p)) eqn:E2;
          [| now rewrite app_nil_r].
        apply text_eqb_eq in E2. subst k. elim Hk0.
        apply (in_map fst) in H. exact H.
    + apply text_eqb_neq in E.
      destruct IH as (I1 & I2).
      * exact Hnd'.
      * intros k ps H. apply Hg. now right.
      * intros Hk. apply Hnone. intros [H | H]; [now elim E | now elim Hk].
      * cbn [map fst]. split.
        -- constructor; [| exact I1].
           rewrite add_to_feed_has_keys. intros [H | H];
             [now elim Hk0 | now elim E].
        -- intros k ps [H | H]; [| now apply I2].
           injection H as <- <-.
           destruct (Hg _ _ (or_introl eq_refl)) as [-> Hne].
           split; [| exact Hne].
           unfold posts_of_feed. rewrite filter_snoc.
           destruct (text_eqb k0 (fp_feed_name p)) eqn:E2;
             [| now rewrite app_nil_r].
           apply text_eqb_eq in E2. now elim E.
Qed.

Lemma group_by_feed_grouped rest : forall l d,
  NoDup (map fst d) ->
  (forall k ps, In (k, ps) d -> ps = posts_of_feed k l /\ ps <> []) ->
  (forall q, In q l -> In (fp_feed_name q) (map fst d)) ->
  NoDup (map fst (fold_left add_to_feed rest d))
  /\ (forall k ps, In (k, ps) (fold_left add_to_feed rest d) ->
        ps = posts_of_feed k (l ++ rest) /\ ps <> [])
  /\ (forall q, In q (l ++ rest) ->
        In (fp_feed_name q) (map fst (fold_left add_to_feed rest d))).
Proof.
  induction rest as [| p rest IH]; intros l d H1 H2 H3.
  - cbn [fold_left]. rewrite app_nil_r. auto.
  - cbn [fold_left].
    destruct (add_to_feed_grouped l d p H1 H2 H3) as (I1 & I2 & I3).
    replace (l ++ p :: rest) with ((l ++ [p]) ++ rest)
      by now rewrite <- app_assoc.
    now apply IH.
Qed.

Lemma add_to_feed_sizes d p :
  list_sum (map (fun g => length (snd g)) (add_to_feed d p))
  = S (list_sum (map (fun g => length (snd g)) d)).
Proof.
  unfold list_sum.
  induction d as [| [k ps] d IH]; cbn [add_to_feed]; [reflexivity |].
  destruct (text_eqb k (fp_feed_name p)); cbn [map fold_right snd].
  - rewrite length_app. simpl. lia.
  - rewrite IH. lia.
Qed.

Lemma group_by_feed_sizes rest : forall d,
  list_sum (map (fun g => length (snd g)) (fold_left add_to_feed rest d))
  = (list_sum (map (fun g => length (snd g)) d) + length rest)%nat.
Proof.
  induction rest as [| p rest IH]; intros d; cbn [fold_left length].
  - lia.
  - rewrite IH, add_to_feed_sizes. lia.
Qed.

Lemma two_each_bound (d : list (text * list feed_post)) :
  (list_sum (map (fun g => Nat.min 2 (length (snd g))) d)
   <= list_sum (map (fun g => length (snd g)) d))%nat.
Proof.
  unfold list_sum. induction d as [| g d IH]; cbn [map fold_right]; lia.
Qed.

Lemma telegram_body_count posts :
  snd (telegram_body posts) = shown_count (group_by_feed posts)
  /\ (snd (telegram_body posts) <= length posts)%nat.
Proof.
  unfold telegram_body, shown_count.
  rewrite show_feeds_total by lia. cbn [Nat.add]. split; [reflexivity |].
  pose proof (two_each_bound (group_by_feed posts)) as H.
  unfold group_by_feed in H at 2.
  rewrite group_by_feed_sizes in H.
  change (list_sum (map (fun g : text * list feed_post => length (snd g)) []))
    with 0%nat in H.
  lia.
Qed.

Lemma text_eqb_sym a b : text_eqb a b = text_eqb b a.
Proof.
  destruct (text_eqb a b) eqn:E.
  - apply text_eqb_eq in E. subst b. now rewrite text_eqb_refl.
  - destruct (text_eqb b a) eqn:E2; [| reflexivity].
    apply text_eqb_eq in E2. subst b. now rewrite text_eqb_refl in E.
Qed.

Lemma existsb_pointwise {A} (f g : A -> bool) l :
  (forall x, f x = g x) -> existsb f l = existsb g l.
Proof.
  intros H. induction l as [| x l IH]; [reflexivity |].
  cbn [existsb]. now rewrite H, IH.
Qed.

Lemma feed_names_from_ext posts : forall s1 s2,
  (forall k, is_seen s1 k = is_seen s2 k) ->
  feed_names_from s1 posts = feed_names_from s2 posts.
Proof.
  induction posts as [| p posts IH]; intros s1 s2 H; [reflexivity |].
  cbn [feed_names_from]. rewrite (H (fp_feed_name p)).
  destruct (is_seen s2 (fp_feed_name p)); [now apply IH |].
  f_equal. apply IH. intros k. unfold is_seen. cbn [existsb].
  f_equal. apply H.
Qed.

(** The names of the groups are the feed names in the order of their
    first appearance. *)
Lemma group_by_feed_names rest : forall d,
  map fst (fold_left add_to_feed rest d)
  = map fst d ++ feed_names_from (map fst d) rest.
Proof.
  induction rest as [| p rest IH]; intros d; cbn [fold_left feed_names_from].
  - now rewrite app_nil_r.
  - rewrite IH, add_to_feed_keys.
    assert (E : existsb (fun k => text_eqb k (fp_feed_name p)) (map fst d)
                = is_seen (map fst d) (fp_feed_name p)).
    { unfold is_seen. apply existsb_pointwise. intros k.
      apply text_eqb_sym. }
    rewrite E. destruct (is_seen (map fst d) (fp_feed_name p)) eqn:Hs;
      [reflexivity |].
    rewrite <- app_assoc. cbn [app]. do 2 f_equal.
    apply feed_names_from_ext. intros k. unfold is_seen.
    rewrite existsb_app. cbn [existsb]. rewrite orb_false_r.
    apply orb_comm.
Qed.

Lemma groups_of_names (posts : list feed_post)
  (d : list (text * list feed_post)) :
  (forall k ps, In (k, ps) d -> ps = posts_of_feed k posts) ->
  d = map (fun k => (k, posts_of_feed k posts)) (map fst d).
Proof.
  induction d as [| [k ps] d IH]; intros H; [reflexivity |].
  cbn [map fst]. rewrite <- IH by (intros; apply H; now right).
  now rewrite <- (H k ps (or_introl eq_refl)).
Qed.

Lemma show_posts_shown ps : forall m t,
  show_posts ps (m, t)
  = (m ++ flat_map post_line (firstn (8 - t) ps),
     (t + length (firstn (8 - t) ps))%nat).
Proof.
  induction ps as [| p ps IH]; intros m t; cbn [show_posts].
  - rewrite firstn_nil. cbn. now rewrite app_nil_r, Nat.add_0_r.
  - destruct (8 <=? t)%nat eqn:E.
    + apply Nat.leb_le in E. replace (8 - t)%nat with 0%nat by lia.
      cbn. now rewrite app_nil_r, Nat.add_0_r.
    + apply Nat.leb_gt in E. rewrite IH.
      replace (8 - t)%nat with (S (8 - S t)) by lia.
      cbn [firstn flat_map length]. rewrite <- app_assoc.
      f_equal. lia.
Qed.

Lemma show_feeds_shown d : forall m t,
  show_feeds d (m, t)
  = (m ++ flat_map feed_block (shown_groups t d),
     (t + length (flat_map snd (shown_groups t d)))%nat).
Proof.
  induction d as [| [name posts] d IH]; intros m t;
    cbn [show_feeds shown_groups].
  - cbn. now rewrite app_nil_r, Nat.add_0_r.
  - destruct (8 <=? t)%nat eqn:E.
    + cbn. now rewrite app_nil_r, Nat.add_0_r.
    + rewrite show_posts_shown, IH.
      cbn [flat_map fst snd]. unfold feed_block at 2. cbn [fst snd].
      rewrite length_app, <- !app_assoc. f_equal. lia.
Qed.

(** X14. The Telegram message goes through the feeds in the order in
    which their first new post was found, each feed with its new posts
    in their order, and shows of each feed its first two posts as long
    as eight posts are not reached: the text before the closing lines is
    the heading and then, for each feed shown, its name and a line for
    each of its posts shown.  The number of posts shown is the least of
    8 and the sum over the feeds of the least of 2 and the number of
    posts of the feed, never more than there are, and the line that
    announces how many more there are is left out exactly when every new
    post is shown.  Without new posts there is no message. *)
Theorem telegram_shows_two_per_feed :
  forall detected_at posts,
    let d := map (fun k => (k, posts_of_feed k posts)) (feed_names posts) in
    let shown := flat_map snd (shown_groups 0 d) in
    group_by_feed posts = d
    /\ (forall k, In k (feed_names posts) -> posts_of_feed k posts <> [])
    /\ (forall p, In p posts -> In (fp_feed_name p) (feed_names posts))
    /\ NoDup (feed_names posts)
    /\ fst (telegram_body posts)
       = u8"🔥 *NOVAS PROMOÇÕES ENCONTRADAS!*" ++ [newline; newline]
         ++ flat_map feed_block (shown_groups 0 d)
    /\ snd (telegram_body posts) = length shown
    /\ length shown = shown_count d
    /\ (length shown <= length posts)%nat
    /\ telegram_message detected_at posts =
       match posts with
       | [] => None
       | _ :: _ =>
           Some (fst (telegram_body posts)
                 ++ (if (length shown <? length posts)%nat
                     then u8"... e mais "
                          ++ str_of_nat (length posts - length shown)
                          ++ u8" promoções!" ++ [newline; newline]
                     else [])
                 ++ u8"📊 *Total:* " ++ str_of_nat (length posts)
                 ++ u8" novas promoções" ++ [newline]
                 ++ u8"⏰ *Detectado em:* " ++ detected_at)
       end.
Proof.
  intros detected_at posts d shown.
  destruct (group_by_feed_grouped posts [] []) as (H1 & H2 & H3).
  { constructor. }
  { intros k ps []. }
  { intros q []. }
  cbn [app] in H2, H3. fold (group_by_feed posts) in H1, H2, H3.
  assert (Hn : map fst (group_by_feed posts) = feed_names posts).
  { unfold group_by_feed. now rewrite group_by_feed_names. }
  assert (Hd : group_by_feed posts = d).
  { unfold d. rewrite <- Hn. apply groups_of_names.
    intros k ps H. now apply H2. }
  rewrite Hn in H1, H3.
  destruct (telegram_body_count posts) as [H4 H5]. rewrite Hd in H4.
  assert (Hb : telegram_body posts
               = (u8"🔥 *NOVAS PROMOÇÕES ENCONTRADAS!*" ++ [newline; newline]
                  ++ flat_map feed_block (shown_groups 0 d),
                  length shown)).
  { unfold telegram_body. rewrite Hd, show_feeds_shown.
    now rewrite <- app_assoc. }
  assert (H6 : length shown = shown_count d).
  { rewrite <- H4, Hb. reflexivity. }
  split; [exact Hd | split; [| split; [exact H3 | split; [exact H1 |]]]].
  { intros k Hk. rewrite <- Hn in Hk. apply in_map_iff in Hk.
    destruct Hk as ([k' ps] & <- & Hin). destruct (H2 k' ps Hin) as [E Hne].
    cbn [fst]. now rewrite <- E. }
  split; [now rewrite Hb | split; [now rewrite Hb |]].
  split; [exact H6 | split; [rewrite H6, <- H4; exact H5 |]].
  destruct posts as [| p0 posts0]; [reflexivity |].
  set (posts := p0 :: posts0) in *.
  unfold telegram_message. fold posts. rewrite Hb. cbn [fst].
  assert (Hle : (length shown <= length posts)%nat)
    by (rewrite H6, <- H4; exact H5).
  assert (Hs : forall n, str_of_int (Z.of_nat n) = str_of_nat n).
  { intros n. unfold str_of_int.
    destruct (Z.of_nat n <? 0)%Z eqn:E; [apply Z.ltb_lt in E; lia |].
    now rewrite Nat2Z.id. }
  rewrite Hs.
  destruct (length shown <? length posts)%nat eqn:E.
  - apply Nat.ltb_lt in E.
    replace (Z.of_nat (length posts) - Z.of_nat (length shown))%Z
      with (Z.of_nat (length posts - length shown)) by lia.
    rewrite Hs.
    destruct (0 <? Z.of_nat (length posts - length shown))%Z eqn:E2;
      [| apply Z.ltb_ge in E2; lia].
    now rewrite <- !app_assoc.
  - apply Nat.ltb_ge in E.
    destruct (0 <? Z.of_nat (length posts) - Z.of_nat (length shown))%Z
      eqn:E2; [apply Z.ltb_lt in E2; lia |].
    reflexivity.
Qed.

(** ** The text of [create_github_output] *)





(** ** The default departure date *)

(** X16. When [get_sp_recife_prices] is given no date it asks for the
    next Monday: the day it picks is a Monday, lies one to seven days
    after today (a week ahead when today is a Monday) and no Monday
    lies between; the branch that adds seven days is never taken. *)
Theorem default_departure_is_next_monday :
  forall today,
    weekday (default_departure today) = 0%Z
    /\ (today < default_departure today <= today + 7)%Z
    /\ (forall day, (today < day < default_departure today)%Z ->
                    weekday day <> 0%Z)
    /\ days_ahead today = (7 - weekday today)%Z.
Proof.
  intros today. unfold default_departure, days_ahead, weekday.
  assert (H : (0 <= (today + 6) mod 7 < 7)%Z)
    by (apply Z.mod_pos_bound; lia).
  destruct (7 - (today + 6) mod 7 <=? 0)%Z eqn:E;
    [apply Z.leb_le in E; lia |].
  repeat split; try lia.
  - pose proof (Z.div_mod (today + 6) 7 ltac:(lia)) as Hd.
    replace (today + (7 - (today + 6) mod 7) + 6)%Z
      with (((today + 6) / 7 + 1) * 7)%Z by lia.
    apply Z_mod_mult.
  - intros day Hday Hm.
    pose proof (Z.div_mod (today + 6) 7 ltac:(lia)) as Hd.
    pose proof (Z.div_mod (day + 6) 7 ltac:(lia)) as Hd'.
    rewrite Hm in Hd'. lia.
Qed.

(** ** A good deal is below the market price *)

(** *** The sign of a difference of floats *)

Lemma digits2_pos_bounds m :
  (2 ^ (Z.pos (digits2_pos m) - 1) <= Z.pos m < 2 ^ Z.pos (digits2_pos m))%Z.
Proof.
  induction m as [m IH | m IH |]; cbn [digits2_pos].
  - rewrite Pos2Z.inj_succ, Z.pow_succ_r by lia.
    replace (Z.succ (Z.pos (digits2_pos m)) - 1)%Z
      with (Z.succ (Z.pos (digits2_pos m) - 1)) by lia.
    rewrite Z.pow_succ_r by lia. lia.
  - rewrite Pos2Z.inj_succ, Z.pow_succ_r by lia.
    replace (Z.succ (Z.pos (digits2_pos m)) - 1)%Z
      with (Z.succ (Z.pos (digits2_pos m) - 1)) by lia.
    rewrite Z.pow_succ_r by lia. lia.
  - simpl. lia.
Qed.

Lemma bounded_mantissa m e :
  bounded prec emax m e = true ->
  (Z.pos m < 2 ^ 53 /\ -1074 <= e /\ (-1074 < e -> 2 ^ 52 <= Z.pos m))%Z.
Proof.
  unfold bounded, canonical_mantissa, fexp, SpecFloat.emin, prec, emax.
  intros H. apply andb_true_iff in H. destruct H as [H _].
  apply Z.eqb_eq in H.
  pose proof (digits2_pos_bounds m) as [Hlo Hhi].
  set (d := Z.pos (digits2_pos m)) in *.
  assert (Hd : (0 < d)%Z) by (unfold d; lia).
  change (IntDef.Z.max) with Z.max in H.
  split; [| split].
  - assert (d <= 53)%Z by lia.
    apply Z.lt_le_trans with (1 := Hhi).
    apply Z.pow_le_mono_r; lia.
  - lia.
  - intros He. assert (d = 53)%Z by lia.
    replace 52%Z with (d - 1)%Z by lia. exact Hlo.
Qed.

Lemma shl_align_value m e ez :
  (ez <= e)%Z ->
  Z.pos (fst (shl_align m e ez)) = (Z.pos m * 2 ^ (e - ez))%Z.
Proof.
  intros H. unfold shl_align.
  destruct (ez - e)%Z as [| d | d] eqn:E; cbn [fst].
  - replace (e - ez)%Z with 0%Z by lia. simpl. lia.
  - lia.
  - change (PosDef.Pos.iter xO m d) with (shift_pos d m).
    rewrite shift_pos_correct, Z.pow_pos_fold.
    replace (e - ez)%Z with (Z.pos d) by lia. lia.
Qed.

Lemma binary_normalize_above_zero m e :
  above_zero (binary_normalize prec emax m e false) = true -> (0 < m)%Z.
Proof.
  destruct m as [| p | p]; simpl; [discriminate | lia |].
  unfold binary_round.
  destruct (shl_align p e _) as [mz ez'].
  pose proof (binary_round_aux_sign true (Z.pos mz) ez' loc_Exact) as H.
  destruct (binary_round_aux prec emax true (Z.pos mz) ez' loc_Exact);
    simpl; intros H'; subst; discriminate.
Qed.

Lemma SFsub_above_zero x y :
  valid_binary x = true -> valid_binary y = true ->
  above_zero (SF64sub x y) = true ->
  SFcompare x y = Some Gt.
Proof.
  intros Hx Hy.
  destruct x as [sx | sx | | sx mx ex]; destruct y as [sy | sy | | sy my ey];
    try (repeat match goal with s : bool |- _ => destruct s end;
         simpl; try reflexivity; discriminate).
  cbv beta iota zeta delta [SF64sub SFsub].
  intros H. apply binary_normalize_above_zero in H.
  simpl in Hx, Hy.
  apply bounded_mantissa in Hx, Hy.
  destruct Hx as (Hx1 & Hx2 & Hx3), Hy as (Hy1 & Hy2 & Hy3).
  change IntDef.Z.min with Z.min in H.
  rewrite !shl_align_value in H by lia.
  assert (Hp : forall a b, (b <= a)%Z -> (0 < 2 ^ (a - b))%Z)
    by (intros; apply Z.pow_pos_nonneg; lia).
  pose proof (Hp ex (Z.min ex ey) ltac:(lia)) as Hpx.
  pose proof (Hp ey (Z.min ex ey) ltac:(lia)) as Hpy.
  unfold SFcompare.
  destruct sx, sy; unfold cond_Zopp in H; try reflexivity; [| exfalso; nia |].
  - (* both negative *)
    destruct (Z.compare_spec ex ey) as [E | E | E].
    + subst ey. rewrite Z.min_id, Z.sub_diag, Z.pow_0_r, !Z.mul_1_r in H.
      change (PosDef.Pos.compare_cont Eq mx my) with (Pos.compare mx my).
      assert (Hc : (mx ?= my)%positive = Lt) by (apply Pos.compare_lt_iff; lia).
      now rewrite Hc.
    + reflexivity.
    + exfalso. rewrite Z.min_r in H by lia.
      rewrite Z.sub_diag, Z.pow_0_r, Z.mul_1_r in H.
      assert (2 ^ 1 <= 2 ^ (ex - ey))%Z by (apply Z.pow_le_mono_r; lia).
      specialize (Hx3 ltac:(lia)). change (2 ^ 1)%Z with 2%Z in *. nia.
  - (* both positive *)
    destruct (Z.compare_spec ex ey) as [E | E | E].
    + subst ey. rewrite Z.min_id, Z.sub_diag, Z.pow_0_r, !Z.mul_1_r in H.
      change (PosDef.Pos.compare_cont Eq mx my) with (Pos.compare mx my).
      apply f_equal. apply Pos.compare_gt_iff. lia.
    + exfalso. rewrite Z.min_l in H by lia.
      rewrite Z.sub_diag, Z.pow_0_r, Z.mul_1_r in H.
      assert (2 ^ 1 <= 2 ^ (ey - ex))%Z by (apply Z.pow_le_mono_r; lia).
      specialize (Hy3 ltac:(lia)). change (2 ^ 1)%Z with 2%Z in *. nia.
    + reflexivity.
Qed.

Lemma above_fifty (x : float) :
  (50 <? x)%float = true -> above_zero (Prim2SF x) = true.
Proof.
  rewrite ltb_spec.
  destruct (Prim2SF x) as [s | s | | s m e]; try destruct s;
    vm_compute; congruence.
Qed.

(** A difference above 50 has its first term above its second. *)
Lemma savings_above_fifty (market p : float) :
  (50 <? market - p)%float = true -> (market <=? p)%float = false.
Proof.
  intros H. apply above_fifty in H. rewrite sub_spec in H.
  apply SFsub_above_zero in H; try apply Prim2SF_valid.
  rewrite leb_spec. unfold SFleb. now rewrite H.
Qed.

(** X17. A deal that the scorer marks as good is never graded RUIM:
    savings above 50 mean, in binary64 arithmetic too, that the
    promotion price is below the market price, so the grade is one of
    EXCELENTE, MUITO_BOA, BOA and REGULAR. *)
Theorem good_deal_is_never_rated_bad :
  forall promo market d,
    score_deal promo market = Ok (Some d) ->
    is_good_deal d = true ->
    deal_quality_ d <> RUIM
    /\ (market <=? promotion_price_brl d)%float = false.
Proof.
  intros promo market d. unfold score_deal.
  destruct (truthy promo) as [p |]; [| discriminate].
  destruct (if (0 <? market)%float then _ else _) as [discount | e];
    [| discriminate].
  cbn [bind]. unfold _rate_deal_quality.
  destruct (market <=? p)%float eqn:Hle.
  - cbn [bind]. intros H. injection H as <-. cbn [is_good_deal].
    intros Hg. apply andb_true_iff in Hg. destruct Hg as [Hg _].
    apply savings_above_fifty in Hg. congruence.
  - destruct (py_div (market - p) market) as [q | e]; [| discriminate].
    cbn [bind]. intros H. injection H as <-. intros _.
    cbn [deal_quality_ promotion_price_brl]. split; [| exact Hle].
    destruct (30 <=? q * 100)%float; [discriminate |].
    destruct (15 <=? q * 100)%float; [discriminate |].
    destruct (5 <=? q * 100)%float; discriminate.
Qed.

Lemma good_deal_is_never_rated_bad_witness :
  deal_quality_ (deal_of_prices 300 500) <> RUIM
  /\ (500 <=? promotion_price_brl (deal_of_prices 300 500))%float = false.
Proof.
  apply (good_deal_is_never_rated_bad (Some 300%float) 500%float
           (deal_of_prices 300 500)).
  - vm_compute. reflexivity.
  - vm_compute. reflexivity.
Defined.

(** ** Raising the price thresholds *)

Lemma float_le_int_mono x z z' :
  (z <= z')%Z -> float_le_int x z = true -> float_le_int x z' = true.
Proof.
  unfold float_le_int. intros Hz.
  destruct (Prim2SF x) as [s | s | | s m e]; try (intros H; exact H).
  - intros H. apply Z.leb_le in H. apply Z.leb_le. lia.
  - destruct (0 <=? e)%Z eqn:E; intros H; apply Z.leb_le in H;
      apply Z.leb_le; [lia |].
    apply Z.leb_gt in E.
    assert (0 < 2 ^ (- e))%Z by (apply Z.pow_pos_nonneg; lia).
    nia.
Qed.

(** X18. Raising the integer thresholds of the price section never
    turns an accepted post into a rejected one: a post that
    [check_price_filter] passes with the limits [d] and [i] passes with
    any limits that are at least as high. *)
Theorem price_filter_is_monotone :
  forall U d d' i i' title summary,
    (d <= d')%Z -> (i <= i')%Z ->
    check_price_filter U (price_on (Some (Int d)) (Some (Int i)))
      title summary = Ok true ->
    check_price_filter U (price_on (Some (Int d')) (Some (Int i')))
      title summary = Ok true.
Proof.
  intros U d d' i i' title summary Hd Hi.
  unfold check_price_filter, max_price, price_on, get_in.
  cbn [price price_enabled domestic_max international_max get negb].
  destruct (extract_price U (full_text title summary)) as [[x |] | e];
    cbn [bind]; auto.
  destruct (is_international U (full_text title summary));
    cbn [float_le_num]; intros H; injection H as H; f_equal;
    eapply float_le_int_mono; eauto.
Qed.

Lemma price_filter_is_monotone_witness :
  check_price_filter latin (price_on (Some (Int 800)) (Some (Int 2500)))
    (u8"Passagem para Recife por R$ 650") [] = Ok true.
Proof.
  apply (price_filter_is_monotone latin 700 800 2000 2500
           (u8"Passagem para Recife por R$ 650") []); try lia.
  vm_compute. reflexivity.
Defined.
